(** * Extension identity and dependency resolution

    A shallow embedding of
    [src/vs/platform/extensionManagement/common/extensionManagementUtil.ts]:
    [areSameExtensions], the [ExtensionKey] class with its regular
    expression, [groupByExtension] and [getExtensionDependencies].

    Strings are sequences of code units; the embedding uses Rocq's [string],
    whose code units range over 0..255.  The value [undefined] of an optional
    field is [None]. *)

From Stdlib Require Import String Ascii List Bool Arith ZArith Lia Permutation.
Import ListNotations.

Local Open Scope string_scope.
Local Open Scope list_scope.

(* ===================================================================== *)
(** * Definitions *)
(* ===================================================================== *)

(** ** JavaScript values *)

(** Truthiness of a string: only the empty string is falsy. *)
Definition truthy (s : string) : bool := negb (s =? "")%string.

(** Truthiness of an optional string: [undefined] and [""] are falsy. *)
Definition truthyOpt (o : option string) : bool :=
  match o with
  | Some s => truthy s
  | None => false
  end.

(** [x === y] on values that are a string or [undefined]. *)
Definition strictEqualsOpt (x y : option string) : bool :=
  match x, y with
  | Some a, Some b => (a =? b)%string
  | None, None => true
  | _, _ => false
  end.

(** The outcome of an evaluation that may throw. *)
Inductive error : Type :=
| TypeError (reading : string).   (* a property read off [undefined] or [null] *)

Inductive outcome (A : Type) : Type :=
| Return (a : A)
| Throw (e : error).
Arguments Return {A} a.
Arguments Throw {A} e.

Definition bind {A B : Type} (m : outcome A) (f : A -> outcome B) : outcome B :=
  match m with
  | Return a => f a
  | Throw e => Throw e
  end.

Notation "x <- m ;; k" := (bind m (fun x => k))
  (at level 61, m at next level, right associativity).

(** ** Collaborators declared outside of extensionManagementUtil.ts *)

Module strings.

(** Lower-case an ASCII letter, leave every other code unit alone. *)
Definition toLowerAscii (c : ascii) : ascii :=
  let n := nat_of_ascii c in
  if ((65 <=? n) && (n <=? 90))%nat then ascii_of_nat (n + 32) else c.

(** Modelled from the spec: [compareIgnoreCase] of [vs/base/common/strings],
    which the source imports and which is not part of it.  The spec calls it
    the "case-insensitive comparison" of two ids.  The model compares the two
    strings code unit by code unit after folding ASCII letters, and returns a
    negative number, zero or a positive number.  It is only used to
    instantiate the comparator at concrete inputs: the functions below take
    the comparator as a parameter. *)
Fixpoint compareIgnoreCase (a b : string) : Z :=
  match a, b with
  | EmptyString, EmptyString => 0
  | EmptyString, String _ _ => -1
  | String _ _, EmptyString => 1
  | String x a', String y b' =>
      let d := (Z.of_nat (nat_of_ascii (toLowerAscii x))
                - Z.of_nat (nat_of_ascii (toLowerAscii y)))%Z in
      if (d =? 0)%Z then compareIgnoreCase a' b' else d
  end.

End strings.

Module TargetPlatform.

(** Modelled from the spec: the [TargetPlatform] enumeration of
    [vs/platform/extensions/common/extensions], which the source imports and
    which is not part of it.  At run time its members are strings; the spec
    names win32-x64, darwin-arm64, UNDEFINED and UNKNOWN among them and says
    that UNDEFINED is the sentinel for "platform-agnostic".  The other
    members are the remaining platform tags of the extension gallery. *)
Definition WIN32_X64 := "win32-x64".
Definition WIN32_IA32 := "win32-ia32".
Definition WIN32_ARM64 := "win32-arm64".
Definition LINUX_X64 := "linux-x64".
Definition LINUX_ARM64 := "linux-arm64".
Definition LINUX_ARMHF := "linux-armhf".
Definition ALPINE_X64 := "alpine-x64".
Definition ALPINE_ARM64 := "alpine-arm64".
Definition DARWIN_X64 := "darwin-x64".
Definition DARWIN_ARM64 := "darwin-arm64".
Definition WEB := "web".
Definition UNIVERSAL := "universal".
Definition UNKNOWN := "unknown".
Definition UNDEFINED := "undefined".

Definition values : list string :=
  [ WIN32_X64; WIN32_IA32; WIN32_ARM64;
    LINUX_X64; LINUX_ARM64; LINUX_ARMHF;
    ALPINE_X64; ALPINE_ARM64;
    DARWIN_X64; DARWIN_ARM64;
    WEB; UNIVERSAL; UNKNOWN; UNDEFINED ].

(** A string is a valid target platform when it is one of the members. *)
Definition isValid (s : string) : bool :=
  existsb (fun v => (v =? s)%string) values.

End TargetPlatform.

(** ** Identifiers: [{ id: string, uuid?: string }] *)

Record IExtensionIdentifier : Type := {
  id : string;
  uuid : option string
}.

(** The object literal [{ id }]. *)
Definition idOnly (i : string) : IExtensionIdentifier :=
  {| id := i; uuid := None |}.

Section IdentityComparator.

Variable compareIgnoreCase : string -> string -> Z.

(** [areSameExtensions], lines 10-18. *)
Definition areSameExtensions (a b : IExtensionIdentifier) : bool :=
  if truthyOpt (uuid a) && truthyOpt (uuid b) then
    strictEqualsOpt (uuid a) (uuid b)
  else if (id a =? id b)%string then true
  else (compareIgnoreCase (id a) (id b) =? 0)%Z.

End IdentityComparator.

(** ** A backtracking matcher for the regular expressions the source uses

    The matcher follows the continuation semantics of the language standard:
    a node is run on the rest of the input with the captures so far and a
    continuation; a greedy quantifier first tries to take one more code unit
    and only then hands over to its continuation. *)

Module RegExp.

Definition input : Type := list ascii.

(** Capture groups, most recent binding first. *)
Definition captures : Type := list (nat * input).

Fixpoint group (n : nat) (c : captures) : option string :=
  match c with
  | [] => None
  | (m, w) :: c' =>
      if (m =? n)%nat then Some (string_of_list_ascii w) else group n c'
  end.

Inductive node : Type :=
| Char (p : ascii -> bool)        (* one code unit of a class *)
| Plus (p : ascii -> bool)        (* [p+], greedy *)
| Seq (r1 r2 : node)
| Group (n : nat) (r : node)      (* capturing group number [n] *)
| Opt (r : node).                 (* [r?], greedy *)

Section Matcher.

Context {R : Type}.

Fixpoint plus (p : ascii -> bool) (s : input) (k : input -> option R)
  : option R :=
  match s with
  | [] => None
  | x :: s' =>
      if p x then
        match plus p s' k with
        | Some r => Some r
        | None => k s'
        end
      else None
  end.

Fixpoint run (r : node) (s : input) (c : captures)
    (k : input -> captures -> option R) : option R :=
  match r with
  | Char p =>
      match s with
      | x :: s' => if p x then k s' c else None
      | [] => None
      end
  | Plus p => plus p s (fun s' => k s' c)
  | Seq r1 r2 => run r1 s c (fun s1 c1 => run r2 s1 c1 k)
  | Group n r1 =>
      run r1 s c
        (fun s' c' => k s' ((n, firstn (List.length s - List.length s') s) :: c'))
  | Opt r1 =>
      match run r1 s c k with
      | Some x => Some x
      | None => k s c
      end
  end.

End Matcher.

(** The continuation of [$]: succeed at the end of the input only. *)
Definition atEnd (s : input) (c : captures) : option captures :=
  match s with
  | [] => Some c
  | _ :: _ => None
  end.

(** [/^r$/.exec(s)]: the match starts at index 0 and ends at the end of the
    input (no [m] flag). *)
Definition exec (r : node) (s : string) : option captures :=
  run r (list_ascii_of_string s) [] atEnd.

(** Whether [/^r$/] matches a sequence of code units. *)
Definition accepts (r : node) (s : input) : bool :=
  match run r s [] atEnd with
  | Some _ => true
  | None => false
  end.

(** The words a node matches, without the order in which they are tried. *)
Fixpoint lang (r : node) (w : input) : Prop :=
  match r with
  | Char p => exists x, w = [x] /\ p x = true
  | Plus p => w <> [] /\ forallb p w = true
  | Seq r1 r2 => exists w1 w2, w = w1 ++ w2 /\ lang r1 w1 /\ lang r2 w2
  | Group _ r1 => lang r1 w
  | Opt r1 => w = [] \/ lang r1 w
  end.

(** Character classes. *)
Definition only (x : ascii) (c : ascii) : bool := (c =? x)%char.
Definition except (x : ascii) (c : ascii) : bool := negb (c =? x)%char.
Definition digit (c : ascii) : bool :=
  let n := nat_of_ascii c in ((48 <=? n) && (n <=? 57))%nat.
Definition lineTerminator (c : ascii) : bool :=
  let n := nat_of_ascii c in ((n =? 10) || (n =? 13))%nat.
(** [.] without the [s] flag. *)
Definition anyChar (c : ascii) : bool := negb (lineTerminator c).

End RegExp.

(** [ExtensionKeyRegex], line 20:
    [/^([^.]+\..+)-(\d+\.\d+\.\d+)(-(.+))?$/], in four parts.  The anchors
    are in [RegExp.exec]. *)
Definition dot : RegExp.node := RegExp.Char (RegExp.only ".").
Definition dash : RegExp.node := RegExp.Char (RegExp.only "-").
Definition digits : RegExp.node := RegExp.Plus RegExp.digit.

(** [[^.]+\..+] *)
Definition idPart : RegExp.node :=
  RegExp.Seq (RegExp.Plus (RegExp.except "."))
    (RegExp.Seq dot (RegExp.Plus RegExp.anyChar)).

(** [\d+\.\d+\.\d+] *)
Definition versionPart : RegExp.node :=
  RegExp.Seq digits
    (RegExp.Seq dot (RegExp.Seq digits (RegExp.Seq dot digits))).

(** [(-(.+))?] *)
Definition platformPart : RegExp.node :=
  RegExp.Opt
    (RegExp.Group 3
       (RegExp.Seq dash (RegExp.Group 4 (RegExp.Plus RegExp.anyChar)))).

(** [-(\d+\.\d+\.\d+)(-(.+))?] *)
Definition tailPart : RegExp.node :=
  RegExp.Seq dash (RegExp.Seq (RegExp.Group 2 versionPart) platformPart).

Definition ExtensionKeyRegex : RegExp.node :=
  RegExp.Seq (RegExp.Group 1 idPart) tailPart.

(** ** The argument of [ExtensionKey.create] as an object

    [create] probes its argument at run time and the casts of lines 25-26
    check nothing, so the argument is modelled as the value it is at run
    time.  A [slot] is what a variable or a property holds: [undefined]
    (also when the property is missing), [null], a value of the declared
    kind, or a value of another kind (a number where a string is declared, a
    boolean where an object is declared, ...) of which only the truthiness
    is kept. *)

Inductive slot (A : Type) : Type :=
| Undefined
| Null
| Is (a : A)
| Other (truthy : bool).
Arguments Undefined {A}.
Arguments Null {A}.
Arguments Is {A} a.
Arguments Other {A} truthy.

(** [x === undefined || x === null] *)
Definition nullish {A : Type} (x : slot A) : bool :=
  match x with
  | Undefined | Null => true
  | Is _ | Other _ => false
  end.

(** Truthiness of what a slot declared as an object holds: an object is
    truthy whatever its properties. *)
Definition truthyObject {A : Type} (x : slot A) : bool :=
  match x with
  | Undefined | Null => false
  | Is _ => true
  | Other truthy => truthy
  end.

(** The value of a property of a value that is neither [undefined] nor
    [null]: a value that is not an object of the declared kind does not have
    the property. *)
Definition prop {A B : Type} (o : slot A) (get : A -> slot B) : slot B :=
  match o with
  | Is a => get a
  | _ => Undefined
  end.

(** The property read [o.reading]: a [TypeError] on [undefined] and on
    [null]. *)
Definition read {A B : Type} (reading : string) (o : slot A)
    (get : A -> slot B) : outcome (slot B) :=
  if nullish o then Throw (TypeError reading) else Return (prop o get).

Module ExtensionObject.

Record identifier_t : Type := {
  identifier_id : slot string
}.

Record manifest_t : Type := {
  manifest_version : slot string
}.

Record properties_t : Type := {
  properties_targetPlatform : slot string
}.

(** The properties of the argument that [create] reads. *)
Record t : Type := {
  identifier : slot identifier_t;
  manifest : slot manifest_t;
  targetPlatform : slot string;
  version : slot string;
  properties : slot properties_t
}.

(** Modelled from the spec: the two shapes of [ILocalExtension |
    IGalleryExtension], whose declarations are not part of the source.  An
    installed record supplies [manifest.version] and a top-level
    [targetPlatform]; a remote-catalog record supplies [version] and
    [properties.targetPlatform]. *)
Definition installedShape (x : slot t) : Prop :=
  exists e m v p,
    x = Is e /\ manifest e = Is m /\ manifest_version m = Is v /\
    targetPlatform e = Is p.

Definition remoteShape (x : slot t) : Prop :=
  exists e v q p,
    x = Is e /\ version e = Is v /\ properties e = Is q /\
    properties_targetPlatform q = Is p.

End ExtensionObject.

(** ** [class ExtensionKey], lines 22-55 *)

Module ExtensionKey.

(** [identifier.id], before the key's own [id] field takes over the name. *)
Local Abbreviation identifierId := id (only parsing).

(** The fields of a key.  The source types all three as strings; the field
    types are parameters because the constructor stores what it is given,
    and [create] gives it whatever it read from its argument. *)
Record keyOf (I V P : Type) : Type := {
  id : I;
  version : V;
  targetPlatform : P
}.
Arguments id {I V P} _.
Arguments version {I V P} _.
Arguments targetPlatform {I V P} _.

(** A key whose fields are of the declared types. *)
Definition t : Type := keyOf string string string.

(** A key as it is at run time. *)
Definition object : Type := keyOf (slot string) (slot string) (slot string).

(** The constructor, lines 37-43, on a well-typed identifier:
    [targetPlatform] defaults to [TargetPlatform.UNDEFINED] when the
    argument is [undefined]. *)
Definition new {V : Type} (identifier : IExtensionIdentifier) (version : V)
    (targetPlatform : option string) : keyOf string V string :=
  {| id := identifierId identifier;
     version := version;
     targetPlatform :=
       match targetPlatform with
       | Some p => p
       | None => TargetPlatform.UNDEFINED
       end |}.

(** The constructor, lines 37-43, on arguments of any kind.  The default of
    line 40 replaces [undefined] only, a [null] stays; line 42 reads [id]
    from the identifier and is the only statement that can throw. *)
Definition construct (identifier : slot ExtensionObject.identifier_t)
    (version targetPlatform : slot string) : outcome object :=
  let targetPlatform :=
    match targetPlatform with
    | Undefined => Is TargetPlatform.UNDEFINED
    | given => given
    end in
  id <- read "id" identifier ExtensionObject.identifier_id ;;
  Return {| id := id; version := version; targetPlatform := targetPlatform |}.

(** [create], lines 24-28.  Line 25 reads [extension.manifest] first, line 26
    reads [properties.targetPlatform] when there is no manifest, line 27
    reads the identifier and runs the constructor. *)
Definition create (extension : slot ExtensionObject.t) : outcome object :=
  version <-
    (manifest <- read "manifest" extension ExtensionObject.manifest ;;
     if truthyObject manifest
     then manifest <- read "manifest" extension ExtensionObject.manifest ;;
          read "version" manifest ExtensionObject.manifest_version
     else read "version" extension ExtensionObject.version) ;;
  targetPlatform <-
    (manifest <- read "manifest" extension ExtensionObject.manifest ;;
     if truthyObject manifest
     then read "targetPlatform" extension ExtensionObject.targetPlatform
     else properties <- read "properties" extension ExtensionObject.properties ;;
          read "targetPlatform" properties
            ExtensionObject.properties_targetPlatform) ;;
  identifier <- read "identifier" extension ExtensionObject.identifier ;;
  construct identifier version targetPlatform.

(** [x || undefined] on a string or [undefined]. *)
Definition orUndefined (x : option string) : option string :=
  if truthyOpt x then x else None.

(** [parse], lines 30-33. *)
Definition parse (key : string) : option t :=
  match RegExp.exec ExtensionKeyRegex key with
  | Some matches =>
      match RegExp.group 1 matches, RegExp.group 2 matches with
      | Some m1, Some m2 =>
          if truthy m1 && truthy m2 then
            Some (new (idOnly m1) m2 (orUndefined (RegExp.group 4 matches)))
          else None
      | _, _ => None
      end
  | None => None
  end.

(** [toString], lines 45-47. *)
Definition toString (k : t) : string :=
  id k ++ "-" ++ version k ++
  (if negb (targetPlatform k =? TargetPlatform.UNDEFINED)%string
   then "-" ++ targetPlatform k else "").

(** A key read as an identifier: it has an [id] and no [uuid] property. *)
Definition asIdentifier (k : t) : IExtensionIdentifier := idOnly (id k).

Section Equals.

Variable compareIgnoreCase : string -> string -> Z.

(** [equals], lines 49-54, for an argument that is an [ExtensionKey]. *)
Definition equals (this o : t) : bool :=
  areSameExtensions compareIgnoreCase (asIdentifier this) (asIdentifier o)
  && (version this =? version o)%string
  && (targetPlatform this =? targetPlatform o)%string.

End Equals.

End ExtensionKey.

(** ** [groupByExtension], lines 69-88 *)

Section GroupByExtension.

Variable compareIgnoreCase : string -> string -> Z.
Context {T : Type}.
Variable getExtensionIdentifier : T -> IExtensionIdentifier.

(** [group.some(e => areSameExtensions(getExtensionIdentifier(e),
    getExtensionIdentifier(extension)))], line 73. *)
Definition hasMember (extension : T) (group : list T) : bool :=
  existsb
    (fun e =>
       areSameExtensions compareIgnoreCase
         (getExtensionIdentifier e) (getExtensionIdentifier extension))
    group.

(** [findGroup], lines 71-78.  The source returns the group itself, an alias
    into [byExtension]; the model returns its index. *)
Fixpoint findGroup (byExtension : list (list T)) (extension : T) : option nat :=
  match byExtension with
  | [] => None
  | group :: others =>
      if hasMember extension group then Some 0
      else option_map S (findGroup others extension)
  end.

(** [group.push(extension)] on the group at index [i] of [byExtension]. *)
Fixpoint pushInto (i : nat) (extension : T) (byExtension : list (list T))
  : list (list T) :=
  match byExtension, i with
  | [], _ => []
  | group :: others, 0 => (group ++ [extension]) :: others
  | group :: others, S j => group :: pushInto j extension others
  end.

(** The body of the loop, lines 80-85. *)
Definition addExtension (byExtension : list (list T)) (extension : T)
  : list (list T) :=
  match findGroup byExtension extension with
  | Some i => pushInto i extension byExtension
  | None => byExtension ++ [[extension]]
  end.

Definition groupByExtension (extensions : list T) : list (list T) :=
  fold_left addExtension extensions [].

End GroupByExtension.

(** ** [getExtensionDependencies], lines 146-163 *)

(** Modelled from the spec: the part of [IExtension] and of its manifest that
    the source reads; their declarations are in
    [vs/platform/extensions/common/extensions], which is not part of the
    source.  A manifest has a name, a publisher, a version and an optional
    ordered list of dependency ids. *)
Record IExtensionManifest : Type := {
  name : string;
  publisher : string;
  version : string;
  extensionDependencies : option (list string)
}.

Record IExtension : Type := {
  identifier : IExtensionIdentifier;
  manifest : IExtensionManifest
}.

(** [e.manifest.extensionDependencies?.slice(0) ?? []], lines 148 and 157. *)
Definition dependencyIds (e : IExtension) : list string :=
  match extensionDependencies (manifest e) with
  | Some ids => ids
  | None => []
  end.

Section GetExtensionDependencies.

Variable compareIgnoreCase : string -> string -> Z.
Variable installedExtensions : list IExtension.

(** [e => areSameExtensions(e.identifier, { id })], lines 153 and 154. *)
Definition matchesId (i : string) (e : IExtension) : bool :=
  areSameExtensions compareIgnoreCase (identifier e) (idOnly i).

(** One iteration of the loop, lines 151-159, on the queue [extensions]
    whose front is [i] and on the result list [dependencies]. *)
Definition iteration (i : string) (extensions : list string)
    (dependencies : list IExtension) : list string * list IExtension :=
  if truthy i && forallb (fun e => negb (matchesId i e)) dependencies then
    match filter (matchesId i) installedExtensions with
    | [ext0] => (extensions ++ dependencyIds ext0, dependencies ++ [ext0])
    | _ => (extensions, dependencies)
    end
  else (extensions, dependencies).

(** What one iteration does, by cases: it accepts the only installed match
    of a non-empty id that matches no accepted dependency, and otherwise
    drops the id. *)
Inductive iterationCase (i : string) (extensions : list string)
    (dependencies : list IExtension) : list string * list IExtension -> Prop :=
| iteration_accept (ext0 : IExtension) :
    i <> "" ->
    forallb (fun e => negb (matchesId i e)) dependencies = true ->
    filter (matchesId i) installedExtensions = [ext0] ->
    iterationCase i extensions dependencies
      (extensions ++ dependencyIds ext0, dependencies ++ [ext0])
| iteration_drop :
    i = "" \/
    forallb (fun e => negb (matchesId i e)) dependencies = false \/
    List.length (filter (matchesId i) installedExtensions) <> 1 ->
    iterationCase i extensions dependencies (extensions, dependencies).

(** The loop, lines 150-160, run for at most [fuel] iterations: [None] when
    the queue is not empty after [fuel] iterations. *)
Fixpoint whileLoop (fuel : nat) (extensions : list string)
    (dependencies : list IExtension) : option (list IExtension) :=
  match extensions with
  | [] => Some dependencies
  | i :: rest =>
      match fuel with
      | 0 => None
      | S fuel' =>
          let '(extensions', dependencies') := iteration i rest dependencies in
          whileLoop fuel' extensions' dependencies'
      end
  end.

(** The function run for at most [fuel] iterations of its loop. *)
Definition getExtensionDependenciesWithin (fuel : nat) (extension : IExtension)
  : option (list IExtension) :=
  whileLoop fuel (dependencyIds extension) [].

(** The number of ids that are ever put on the queue is at most the number
    of ids the root declares plus all ids the installed extensions declare. *)
Definition enqueueBound (extension : IExtension) : nat :=
  List.length (dependencyIds extension)
  + list_sum (map (fun e => List.length (dependencyIds e)) installedExtensions).

(** [getExtensionDependencies]: the loop run with fuel for every id that can
    be enqueued, which is shown below to be enough. *)
Definition getExtensionDependencies (extension : IExtension)
  : list IExtension :=
  match getExtensionDependenciesWithin (enqueueBound extension) extension with
  | Some dependencies => dependencies
  | None => []
  end.

(** The states that a call on [extension] passes through: the queue and the
    result list each time the condition of line 150 is evaluated, first as
    lines 147-148 set them up, then after every execution of the body on the
    id at the head of the queue. *)
Inductive atLoopHead (extension : IExtension)
  : list string -> list IExtension -> Prop :=
| atLoopHead_entry : atLoopHead extension (dependencyIds extension) []
| atLoopHead_next (i : string) (rest : list string)
    (dependencies : list IExtension) :
    atLoopHead extension (i :: rest) dependencies ->
    atLoopHead extension
      (fst (iteration i rest dependencies))
      (snd (iteration i rest dependencies)).

End GetExtensionDependencies.

(** ** The pattern of a key string

    First in the words of the specification:
    [<id>-<major.minor.patch>[-<targetPlatform>]], where the id contains at
    least one [.] and the version is three dot-separated integer runs. *)

Definition containsDot (s : string) : Prop :=
  In "."%char (list_ascii_of_string s).

Definition integerRun (s : string) : Prop :=
  s <> "" /\ forallb RegExp.digit (list_ascii_of_string s) = true.

Definition threeIntegerRuns (s : string) : Prop :=
  exists major minor patch,
    s = (major ++ "." ++ minor ++ "." ++ patch)%string /\
    integerRun major /\ integerRun minor /\ integerRun patch.

Definition SpecKeyPattern (key : string) : Prop :=
  exists i v (p : option string),
    key = (i ++ "-" ++ v ++
           match p with Some q => "-" ++ q | None => "" end)%string /\
    containsDot i /\ threeIntegerRuns v.

(** Then as the regular expression of line 20 has it.  The ids that it
    accepts: a non-empty publisher without [.], a [.], and a non-empty name
    without line terminators. *)
Definition qualifiedId (s : string) : Prop :=
  exists pub nm,
    s = (pub ++ "." ++ nm)%string /\
    pub <> "" /\ forallb (RegExp.except ".") (list_ascii_of_string pub) = true /\
    nm <> "" /\ forallb RegExp.anyChar (list_ascii_of_string nm) = true.

(** The anchored pattern of the source, read off the regular expression: a
    qualified id, a dash, three integer runs and, optionally, a dash and a
    non-empty platform without line terminators. *)
Definition KeyPattern (key : string) : Prop :=
  exists i v (p : option string),
    key = (i ++ "-" ++ v ++
           match p with Some q => "-" ++ q | None => "" end)%string /\
    qualifiedId i /\ threeIntegerRuns v /\
    match p with
    | Some q =>
        q <> "" /\ forallb RegExp.anyChar (list_ascii_of_string q) = true
    | None => True
    end.

(** ** The words of a key string, as sequences of code units *)

(** A non-empty run of digits. *)
Definition digitRun (w : RegExp.input) : Prop :=
  w <> [] /\ forallb RegExp.digit w = true.

(** The rest of the input is empty or starts outside of the class [p]. *)
Definition stopsAt (p : ascii -> bool) (rest : RegExp.input) : Prop :=
  match rest with [] => True | y :: _ => p y = false end.

(** The words of [versionPart]. *)
Definition versionWord (v : RegExp.input) : Prop :=
  exists v1 v2 v3,
    v = v1 ++ "."%char :: v2 ++ "."%char :: v3 /\
    digitRun v1 /\ digitRun v2 /\ digitRun v3.

(** The words of [idPart]. *)
Definition idWord (w : RegExp.input) : Prop :=
  exists pub nm,
    w = pub ++ "."%char :: nm /\
    pub <> [] /\ forallb (RegExp.except ".") pub = true /\
    nm <> [] /\ forallb RegExp.anyChar nm = true.

(** All suffixes of a list, the list itself first. *)
Fixpoint suffixes {A} (l : list A) : list (list A) :=
  l :: match l with [] => [] | _ :: l' => suffixes l' end.

(** What [toString] appends for the target platform, and what groups 3 and
    4 capture from it. *)
Definition platformSuffix (tp : option RegExp.input) : RegExp.input :=
  match tp with Some t => "-"%char :: t | None => [] end.

Definition platformCaptures (tp : option RegExp.input) : RegExp.captures :=
  match tp with Some t => [(3, "-"%char :: t); (4, t)] | None => [] end.

Definition platformOf (k : ExtensionKey.t) : option RegExp.input :=
  if (ExtensionKey.targetPlatform k =? TargetPlatform.UNDEFINED)%string
  then None
  else Some (list_ascii_of_string (ExtensionKey.targetPlatform k)).

(** A target platform that [toString] and [parse] carry through: it is not
    empty, has no line terminator, and no suffix of the dash followed by it
    reads as a dash, a version and an optional platform. *)
Definition cleanPlatform (tp : string) : bool :=
  truthy tp
  && forallb RegExp.anyChar (list_ascii_of_string tp)
  && forallb (fun b => negb (RegExp.accepts tailPart b))
       (suffixes ("-"%char :: list_ascii_of_string tp)).

(** ** Identity classes of a list of items *)

Section Classes.

Variable compareIgnoreCase : string -> string -> Z.
Context {T : Type}.
Variable getExtensionIdentifier : T -> IExtensionIdentifier.

(** Two items name the same extension. *)
Definition sameItem (x y : T) : bool :=
  areSameExtensions compareIgnoreCase
    (getExtensionIdentifier x) (getExtensionIdentifier y).

(** The items of [l] that are not the same extension as any item before
    them, [seen] being the items before [l]. *)
Fixpoint leaders (seen l : list T) : list T :=
  match l with
  | [] => []
  | x :: l' =>
      if existsb (fun e => sameItem e x) seen
      then leaders (seen ++ [x]) l'
      else x :: leaders (seen ++ [x]) l'
  end.

(** [sameItem] is transitive on the items of [l]. *)
Definition transitiveOn (l : list T) : Prop :=
  forall x y z, In x l -> In y l -> In z l ->
    sameItem x y = true -> sameItem y z = true -> sameItem x z = true.

(** [reps] picks one item of [l] from every identity class: its items are
    items of [l], no two of them are the same extension, and every item of
    [l] is the same extension as one of them. *)
Definition classRepresentatives (l reps : list T) : Prop :=
  incl reps l /\
  ForallOrdPairs (fun a b => sameItem a b = false) reps /\
  forall x, In x l -> exists r, In r reps /\ sameItem r x = true.

End Classes.

(** ** The measure of the dependency loop *)

(** Equality of identifiers, field by field. *)
Definition identifierEqb (a b : IExtensionIdentifier) : bool :=
  (id a =? id b)%string && strictEqualsOpt (uuid a) (uuid b).

(** An installed extension can still be accepted: no accepted dependency
    carries its identifier. *)
Definition acceptable (dependencies : list IExtension) (e : IExtension) : bool :=
  negb (existsb (fun d => identifierEqb (identifier d) (identifier e))
          dependencies).

(** The ids that can still be enqueued: those declared by the installed
    extensions that can still be accepted. *)
Definition pendingIds (installedExtensions dependencies : list IExtension)
  : nat :=
  list_sum
    (map (fun e => List.length (dependencyIds e))
       (filter (acceptable dependencies) installedExtensions)).

(** The id [i] is declared by the root or by one of the dependencies. *)
Definition declaredBy (root : IExtension) (dependencies : list IExtension)
    (i : string) : Prop :=
  exists declarer,
    (declarer = root \/ In declarer dependencies) /\
    In i (dependencyIds declarer).

(** ** The extensions of the examples *)

(** An extension [i] that declares the dependency ids [ids]. *)
Definition extensionWith (i : string) (ids : list string) : IExtension :=
  {| identifier := idOnly i;
     manifest := {| name := i; publisher := "a"; version := "1.0.0";
                    extensionDependencies := Some ids |} |}.

Definition a_one : IExtension := extensionWith "a.one" ["a.two"].
Definition a_two : IExtension := extensionWith "a.two" ["a.one"].

(** ** The captures of a match *)

(** The node [r] matches the word [w] and takes the captures [c] to [c']. *)
Fixpoint matched (r : RegExp.node) (w : RegExp.input)
    (c c' : RegExp.captures) : Prop :=
  match r with
  | RegExp.Char p => (exists x, w = [x] /\ p x = true) /\ c' = c
  | RegExp.Plus p => (w <> [] /\ forallb p w = true) /\ c' = c
  | RegExp.Seq r1 r2 =>
      exists w1 w2 c1,
        w = w1 ++ w2 /\ matched r1 w1 c c1 /\ matched r2 w2 c1 c'
  | RegExp.Group n r1 => exists c1, matched r1 w c c1 /\ c' = (n, w) :: c1
  | RegExp.Opt r1 => (w = [] /\ c' = c) \/ matched r1 w c c'
  end.

(** The key that [parse] builds from an id, a version and the platform that
    follows them, if any. *)
Definition keyOfParts (i v : string) (p : option string) : ExtensionKey.t :=
  {| ExtensionKey.id := i;
     ExtensionKey.version := v;
     ExtensionKey.targetPlatform :=
       match p with Some q => q | None => TargetPlatform.UNDEFINED end |}.

(** A key that [toString] and [parse] carry through. *)
Definition wellFormedKey (k : ExtensionKey.t) : Prop :=
  qualifiedId (ExtensionKey.id k) /\
  threeIntegerRuns (ExtensionKey.version k) /\
  TargetPlatform.isValid (ExtensionKey.targetPlatform k) = true.

(** ** The shape of the groups *)

(** [s] is [l] with some items left out. *)
Inductive Subsequence {A : Type} : list A -> list A -> Prop :=
| Subsequence_nil : Subsequence [] []
| Subsequence_skip (x : A) (s l : list A) :
    Subsequence s l -> Subsequence s (x :: l)
| Subsequence_keep (x : A) (s l : list A) :
    Subsequence s l -> Subsequence (x :: s) (x :: l).

(** The first item of every group, in the order of the groups. *)
Definition firstItems {T : Type} (groups : list (list T)) : list T :=
  concat (map (firstn 1) groups).

Section Linked.

Variable compareIgnoreCase : string -> string -> Z.
Context {T : Type}.
Variable getExtensionIdentifier : T -> IExtensionIdentifier.

(** A group is not empty, and each of its items but the first is the same
    extension as an item before it in the group. *)
Definition linked (group : list T) : Prop :=
  group <> [] /\
  forall before y after,
    group = before ++ y :: after ->
    before = [] \/
    existsb (fun e => sameItem compareIgnoreCase getExtensionIdentifier e y)
      before = true.

(** [sameItem] is symmetric on the items of [l]. *)
Definition symmetricOn (l : list T) : Prop :=
  forall x y, In x l -> In y l ->
    sameItem compareIgnoreCase getExtensionIdentifier x y
    = sameItem compareIgnoreCase getExtensionIdentifier y x.

End Linked.

(** ** [getExtensionId], lines 57-59 *)

Definition getExtensionId (publisher name : string) : string :=
  publisher ++ "." ++ name.

(** ** [getMaliciousExtensionsSet], lines 134-144 *)

(** A [Set<string>]: its members in insertion order, each once. *)
Module StringSet.

Definition t : Type := list string.

Definition empty : t := [].

Definition has (x : string) (s : t) : bool :=
  existsb (fun y => (y =? x)%string) s.

(** [s.add(x)]: a value that is already a member is not added again. *)
Definition add (x : string) (s : t) : t :=
  if has x s then s else s ++ [x].

End StringSet.

(** Modelled from the spec: the part of [IExtensionsControlManifest] that the
    source reads; its declaration is in
    [vs/platform/extensionManagement/common/extensionManagement], which is not
    part of the source.  The manifest carries an optional list of denylisted
    identifiers. *)
Record IExtensionsControlManifest : Type := {
  malicious : option (list IExtensionIdentifier)
}.

Definition getMaliciousExtensionsSet (manifest : IExtensionsControlManifest)
  : StringSet.t :=
  match malicious manifest with
  | Some extensions =>
      fold_left (fun result extension => StringSet.add (id extension) result)
        extensions StringSet.empty
  | None => StringSet.empty
  end.

(** ** [getLocalExtensionTelemetryData], lines 90-100 *)

(** Modelled from the spec: the part of [ILocalExtension] that the source
    reads, an [IExtension] with the identifiers of its publisher, which may be
    [null]. *)
Record ILocalExtension : Type := {
  local_extension : IExtension;
  local_publisherId : option string;
  local_publisherDisplayName : option string
}.

(** The object that the function returns.  [galleryId] is always [null];
    [dependencies] is [undefined], or a boolean. *)
Record LocalExtensionTelemetryData : Type := {
  telemetry_id : string;
  telemetry_name : string;
  telemetry_galleryId : option string;
  telemetry_publisherId : option string;
  telemetry_publisherName : string;
  telemetry_publisherDisplayName : option string;
  telemetry_dependencies : option bool
}.

Definition getLocalExtensionTelemetryData (extension : ILocalExtension)
  : LocalExtensionTelemetryData :=
  let e := local_extension extension in
  {| telemetry_id := id (identifier e);
     telemetry_name := name (manifest e);
     telemetry_galleryId := None;
     telemetry_publisherId := local_publisherId extension;
     telemetry_publisherName := publisher (manifest e);
     telemetry_publisherDisplayName := local_publisherDisplayName extension;
     telemetry_dependencies :=
       match extensionDependencies (manifest e) with
       | Some ids => Some (0 <? List.length ids)%nat
       | None => None
       end |}.

(** ** [getGalleryExtensionTelemetryData], lines 118-130 *)

(** The values of the properties of an object: the ones the function
    computes, and any other value, which the function only passes on. *)
Inductive value : Type :=
| VUndefined
| VNull
| VBoolean (b : bool)
| VString (s : string)
| VOther (tag : nat).

(** An object: its own properties in the order of their creation. *)
Module JsObject.

Definition t : Type := list (string * value).

(** [o[k]], [None] when [o] has no property [k]. *)
Fixpoint get (k : string) (o : t) : option value :=
  match o with
  | [] => None
  | (k', v) :: o' => if (k' =? k)%string then Some v else get k o'
  end.

(** [o[k] = v]: an existing property keeps its place. *)
Fixpoint set (k : string) (v : value) (o : t) : t :=
  match o with
  | [] => [(k, v)]
  | (k', v') :: o' =>
      if (k' =? k)%string then (k, v) :: o' else (k', v') :: set k v o'
  end.

(** [{ ...o, ...source }]: the properties of [source] are set on [o] in
    their order; [undefined] has none.  The source is an object or
    [undefined]. *)
Definition spread (source : option t) (o : t) : t :=
  match source with
  | Some properties => fold_left (fun acc kv => set (fst kv) (snd kv) acc)
                         properties o
  | None => o
  end.

(** Every property name occurs once. *)
Definition wellFormed (o : t) : Prop := NoDup (map fst o).

End JsObject.

(** Modelled from the spec: the part of [IGalleryExtension] that the source
    reads; its declaration is in
    [vs/platform/extensionManagement/common/extensionManagement], which is not
    part of the source. *)
Module IGalleryExtension.

Record properties_t : Type := {
  isPreReleaseVersion : bool;
  dependencies : option (list string)
}.

Record t : Type := {
  name : string;
  identifier : IExtensionIdentifier;
  publisherId : string;
  publisher : string;
  publisherDisplayName : string;
  properties : properties_t;
  telemetryData : option JsObject.t
}.

End IGalleryExtension.

(** A string or [undefined] as a value. *)
Definition valueOfOpt (o : option string) : value :=
  match o with
  | Some s => VString s
  | None => VUndefined
  end.

(** The properties that the object literal of lines 119-128 lists before the
    spread. *)
Definition galleryTelemetryFields (extension : IGalleryExtension.t)
  : JsObject.t :=
  [ ("id", VString (id (IGalleryExtension.identifier extension)));
    ("name", VString (IGalleryExtension.name extension));
    ("galleryId", valueOfOpt (uuid (IGalleryExtension.identifier extension)));
    ("publisherId", VString (IGalleryExtension.publisherId extension));
    ("publisherName", VString (IGalleryExtension.publisher extension));
    ("publisherDisplayName",
      VString (IGalleryExtension.publisherDisplayName extension));
    ("isPreReleaseVersion",
      VBoolean (IGalleryExtension.isPreReleaseVersion
                  (IGalleryExtension.properties extension)));
    ("dependencies",
      VBoolean
        match IGalleryExtension.dependencies
                (IGalleryExtension.properties extension) with
        | Some ids => (0 <? List.length ids)%nat
        | None => false
        end) ].

Definition getGalleryExtensionTelemetryData (extension : IGalleryExtension.t)
  : JsObject.t :=
  JsObject.spread (IGalleryExtension.telemetryData extension)
    (galleryTelemetryFields extension).

(* ===================================================================== *)
(** * Properties *)
(* ===================================================================== *)

(** ** Strings and truthiness *)

Lemma truthy_true_iff (s : string) : truthy s = true <-> s <> "".
Proof.
  unfold truthy. destruct (String.eqb_spec s ""); simpl; split; congruence.
Qed.

Lemma strictEqualsOpt_sym (x y : option string) :
  strictEqualsOpt x y = strictEqualsOpt y x.
Proof.
  destruct x, y; simpl; auto using String.eqb_sym.
Qed.

Lemma compareIgnoreCase_zero_sym (a b : string) :
  strings.compareIgnoreCase a b = 0%Z -> strings.compareIgnoreCase b a = 0%Z.
Proof.
  revert b. induction a as [|x a IH]; intros [|y b]; simpl; try easy.
  destruct (Z.eqb_spec
              (Z.of_nat (nat_of_ascii (strings.toLowerAscii x))
               - Z.of_nat (nat_of_ascii (strings.toLowerAscii y))) 0)
    as [E|E]; [|easy].
  intros H. apply IH in H.
  destruct (Z.eqb_spec
              (Z.of_nat (nat_of_ascii (strings.toLowerAscii y))
               - Z.of_nat (nat_of_ascii (strings.toLowerAscii x))) 0);
    [assumption | lia].
Qed.

(** ** The identity comparator *)

Section IdentityComparatorFacts.

Variable compareIgnoreCase : string -> string -> Z.

Let same := areSameExtensions compareIgnoreCase.

Lemma areSameExtensions_refl (a : IExtensionIdentifier) : same a a = true.
Proof.
  unfold same, areSameExtensions.
  destruct (uuid a) as [u|]; simpl.
  - rewrite andb_diag. destruct (truthy u); [apply String.eqb_refl|].
    now rewrite String.eqb_refl.
  - now rewrite String.eqb_refl.
Qed.

Lemma areSameExtensions_same_id (a b : IExtensionIdentifier) :
  truthyOpt (uuid a) && truthyOpt (uuid b) = false ->
  id a = id b -> same a b = true.
Proof.
  intros Hu Hid. unfold same, areSameExtensions.
  rewrite Hu, Hid. now rewrite String.eqb_refl.
Qed.

Lemma areSameExtensions_idOnly_r (a : IExtensionIdentifier) (i : string) :
  same a (idOnly i)
  = if (id a =? i)%string then true else (compareIgnoreCase (id a) i =? 0)%Z.
Proof.
  unfold same, areSameExtensions. simpl. now rewrite andb_false_r.
Qed.

Hypothesis compareIgnoreCase_zero_sym' :
  forall x y, compareIgnoreCase x y = 0%Z -> compareIgnoreCase y x = 0%Z.

Lemma areSameExtensions_sym (a b : IExtensionIdentifier) : same a b = same b a.
Proof.
  unfold same, areSameExtensions.
  rewrite (andb_comm (truthyOpt (uuid a))), (strictEqualsOpt_sym (uuid a)).
  rewrite (String.eqb_sym (id a)).
  destruct (truthyOpt (uuid b) && truthyOpt (uuid a)); [reflexivity|].
  destruct (id b =? id a)%string; [reflexivity|].
  destruct (Z.eqb_spec (compareIgnoreCase (id a) (id b)) 0) as [E|E];
    destruct (Z.eqb_spec (compareIgnoreCase (id b) (id a)) 0) as [E'|E'];
    try reflexivity; exfalso; auto.
Qed.

End IdentityComparatorFacts.

(** C9.  [areSameExtensions] is reflexive, and it is symmetric as soon as
    the case-insensitive comparison answers "equal" for [x], [y] exactly when
    it does for [y], [x]. *)
Theorem areSameExtensions_reflexive_symmetric
    (compareIgnoreCase : string -> string -> Z)
    (Hcmp : forall x y, compareIgnoreCase x y = 0%Z ->
                        compareIgnoreCase y x = 0%Z) :
  (forall a, areSameExtensions compareIgnoreCase a a = true) /\
  (forall a b, areSameExtensions compareIgnoreCase a b
               = areSameExtensions compareIgnoreCase b a).
Proof.
  split.
  - apply areSameExtensions_refl.
  - apply areSameExtensions_sym, Hcmp.
Qed.

Lemma areSameExtensions_reflexive_symmetric_witness :
  (forall a, areSameExtensions strings.compareIgnoreCase a a = true) /\
  (forall a b, areSameExtensions strings.compareIgnoreCase a b
               = areSameExtensions strings.compareIgnoreCase b a).
Proof.
  apply (areSameExtensions_reflexive_symmetric strings.compareIgnoreCase).
  exact compareIgnoreCase_zero_sym.
Defined.

(** C3, as amended.  When both uuids are present and not empty, the result
    is the exact equality of the two uuids, whatever the ids are. *)
Theorem areSameExtensions_uuid_authoritative
    (compareIgnoreCase : string -> string -> Z)
    (a b : IExtensionIdentifier) (ua ub : string) :
  uuid a = Some ua -> uuid b = Some ub -> ua <> "" -> ub <> "" ->
  areSameExtensions compareIgnoreCase a b = (ua =? ub)%string.
Proof.
  intros Ha Hb Hna Hnb. unfold areSameExtensions. rewrite Ha, Hb. simpl.
  apply truthy_true_iff in Hna, Hnb. now rewrite Hna, Hnb.
Qed.

Lemma areSameExtensions_uuid_authoritative_witness :
  areSameExtensions strings.compareIgnoreCase
    {| id := "pub.one"; uuid := Some "u1" |}
    {| id := "pub.two"; uuid := Some "u1" |} = true /\
  areSameExtensions strings.compareIgnoreCase
    {| id := "pub.one"; uuid := Some "u1" |}
    {| id := "pub.one"; uuid := Some "u2" |} = false.
Proof.
  split.
  - apply (areSameExtensions_uuid_authoritative strings.compareIgnoreCase
             {| id := "pub.one"; uuid := Some "u1" |}
             {| id := "pub.two"; uuid := Some "u1" |} "u1" "u1");
      [reflexivity | reflexivity | discriminate | discriminate].
  - apply (areSameExtensions_uuid_authoritative strings.compareIgnoreCase
             {| id := "pub.one"; uuid := Some "u1" |}
             {| id := "pub.one"; uuid := Some "u2" |} "u1" "u2");
      [reflexivity | reflexivity | discriminate | discriminate].
Defined.

(** C3, as stated, fails: an empty uuid is present but falsy, so line 11
    falls through to the ids.  Both uuids are present and differ, and the
    result is [true] because the ids are equal. *)
Lemma areSameExtensions_empty_uuid_consults_id :
  uuid {| id := "x"; uuid := Some "" |} = Some "" /\
  uuid {| id := "x"; uuid := Some "1" |} = Some "1" /\
  ("" =? "1")%string = false /\
  areSameExtensions strings.compareIgnoreCase
    {| id := "x"; uuid := Some "" |} {| id := "x"; uuid := Some "1" |} = true /\
  areSameExtensions strings.compareIgnoreCase
    {| id := "y"; uuid := Some "" |} {| id := "x"; uuid := Some "1" |} = false.
Proof. repeat split. Qed.

(** C10.  [areSameExtensions] is not transitive: an identifier without uuid
    matches by id two identifiers that their uuids tell apart. *)
Theorem areSameExtensions_not_transitive
    (compareIgnoreCase : string -> string -> Z) :
  let a := {| id := "x"; uuid := Some "1" |} in
  let b := {| id := "x"; uuid := None |} in
  let c := {| id := "x"; uuid := Some "2" |} in
  areSameExtensions compareIgnoreCase a b = true /\
  areSameExtensions compareIgnoreCase b c = true /\
  areSameExtensions compareIgnoreCase a c = false /\
  ~ (forall x y z,
        areSameExtensions compareIgnoreCase x y = true ->
        areSameExtensions compareIgnoreCase y z = true ->
        areSameExtensions compareIgnoreCase x z = true).
Proof.
  cbv zeta. repeat split.
  intros H.
  specialize (H {| id := "x"; uuid := Some "1" |}
                {| id := "x"; uuid := None |}
                {| id := "x"; uuid := Some "2" |} eq_refl eq_refl).
  discriminate H.
Qed.

(** ** The backtracking matcher *)

Lemma firstn_consumed {A : Type} (w s : list A) :
  firstn (List.length (w ++ s) - List.length s) (w ++ s) = w.
Proof.
  rewrite length_app, Nat.add_sub, firstn_app, firstn_all, Nat.sub_diag.
  simpl. apply app_nil_r.
Qed.

Lemma list_ascii_of_string_app (a b : string) :
  list_ascii_of_string (a ++ b)
  = list_ascii_of_string a ++ list_ascii_of_string b.
Proof.
  induction a as [|x a IH]; simpl; [reflexivity | now rewrite IH].
Qed.

Lemma string_of_list_ascii_app (a b : list ascii) :
  string_of_list_ascii (a ++ b)
  = (string_of_list_ascii a ++ string_of_list_ascii b)%string.
Proof.
  induction a as [|x a IH]; simpl; [reflexivity | now rewrite IH].
Qed.

Lemma list_ascii_of_string_nil (s : string) :
  list_ascii_of_string s = [] <-> s = "".
Proof.
  destruct s; simpl; split; congruence.
Qed.

Section PlusFacts.

Context {R : Type}.
Variable p : ascii -> bool.

(** A greedy [p+] only hands over after a non-empty run of [p]. *)
Lemma plus_sound (s : RegExp.input) (k : RegExp.input -> option R) (res : R) :
  RegExp.plus p s k = Some res ->
  exists w s', s = w ++ s' /\ w <> [] /\ forallb p w = true /\ k s' = Some res.
Proof.
  revert res. induction s as [|x s IH]; simpl; intros res H; [discriminate|].
  destruct (p x) eqn:Px; [|discriminate].
  destruct (RegExp.plus p s k) as [r|] eqn:E.
  - injection H as <-. destruct (IH r eq_refl) as (w & s' & -> & _ & Hw & Hk).
    exists (x :: w), s'. simpl. rewrite Px, Hw. repeat split; easy.
  - exists [x], s. simpl. rewrite Px. repeat split; easy.
Qed.

Lemma plus_complete (w s' : RegExp.input) (k : RegExp.input -> option R) :
  w <> [] -> forallb p w = true -> k s' <> None ->
  RegExp.plus p (w ++ s') k <> None.
Proof.
  induction w as [|x w IH]; [easy|]. intros _ Hw Hk. simpl in *.
  apply andb_prop in Hw as [Px Hw]. rewrite Px.
  destruct w as [|y w].
  - simpl. destruct (RegExp.plus p s' k); [discriminate | exact Hk].
  - specialize (IH ltac:(discriminate) Hw Hk).
    destruct (RegExp.plus p ((y :: w) ++ s') k); [discriminate | contradiction].
Qed.

(** [p+] fails when the continuation fails after every run it can take. *)
Lemma plus_none (s : RegExp.input) (k : RegExp.input -> option R) :
  (forall a b, a <> [] -> forallb p a = true -> s = a ++ b -> k b = None) ->
  RegExp.plus p s k = None.
Proof.
  induction s as [|x s IH]; simpl; intros H; [reflexivity|].
  destruct (p x) eqn:Px; [|reflexivity].
  rewrite IH.
  - apply (H [x] s); simpl; [discriminate | now rewrite Px | reflexivity].
  - intros a b Ha Hp ->. apply (H (x :: a) b); simpl;
      [discriminate | now rewrite Px, Hp | reflexivity].
Qed.

(** Greedy choice: [p+] stops after [pre] when the continuation accepts
    there and rejects after every longer run. *)
Lemma plus_first (pre rest : RegExp.input) (k : RegExp.input -> option R)
    (res : R) :
  pre <> [] -> forallb p pre = true ->
  k rest = Some res ->
  (forall a b, a <> [] -> forallb p a = true -> rest = a ++ b -> k b = None) ->
  RegExp.plus p (pre ++ rest) k = Some res.
Proof.
  intros Hne Hp Hk Hlonger.
  induction pre as [|x pre IH]; [easy|]. simpl in *.
  apply andb_prop in Hp as [Px Hp]. rewrite Px.
  destruct pre as [|y pre].
  - simpl. now rewrite (plus_none rest k Hlonger).
  - now rewrite (IH ltac:(discriminate) Hp).
Qed.

(** The run of [p+] cannot go past a code unit outside of [p]. *)
Lemma plus_stops (pre rest : RegExp.input) (k : RegExp.input -> option R)
    (res : R) :
  pre <> [] -> forallb p pre = true ->
  match rest with [] => True | y :: _ => p y = false end ->
  k rest = Some res ->
  RegExp.plus p (pre ++ rest) k = Some res.
Proof.
  intros Hne Hp Hstop Hk. apply plus_first; try assumption.
  intros [|y a] b Ha Hpa ->; [easy|]. simpl in *.
  rewrite Hstop in Hpa. discriminate.
Qed.

End PlusFacts.

Section RunFacts.

Context {R : Type}.

(** Soundness: a successful run has consumed a word of the node. *)
Lemma run_sound (r : RegExp.node) :
  forall (s : RegExp.input) (c : RegExp.captures)
         (k : RegExp.input -> RegExp.captures -> option R) (res : R),
    RegExp.run r s c k = Some res ->
    exists w s' c', s = w ++ s' /\ RegExp.lang r w /\ k s' c' = Some res.
Proof.
  induction r as [q|q|r1 IH1 r2 IH2|n r1 IH1|r1 IH1]; simpl; intros s c k res H.
  - destruct s as [|x s]; [discriminate|].
    destruct (q x) eqn:Q; [|discriminate].
    exists [x], s, c. repeat split; eauto.
  - apply plus_sound in H as (w & s' & -> & Hne & Hq & Hk).
    exists w, s', c. repeat split; assumption.
  - apply IH1 in H as (w1 & s1 & c1 & -> & L1 & H).
    apply IH2 in H as (w2 & s2 & c2 & -> & L2 & H).
    exists (w1 ++ w2), s2, c2. rewrite <- app_assoc. repeat split; eauto.
  - apply IH1 in H as (w & s' & c' & -> & L & H). eauto 8.
  - destruct (RegExp.run r1 s c k) as [x|] eqn:E.
    + injection H as <-. apply IH1 in E as (w & s' & c' & -> & L & H).
      exists w, s', c'. repeat split; auto.
    + exists [], s, c. repeat split; auto.
Qed.

(** Completeness: backtracking finds some match when there is one. *)
Lemma run_complete (r : RegExp.node) :
  forall (w s' : RegExp.input) (c : RegExp.captures)
         (k : RegExp.input -> RegExp.captures -> option R),
    RegExp.lang r w -> (forall c', k s' c' <> None) ->
    RegExp.run r (w ++ s') c k <> None.
Proof.
  induction r as [q|q|r1 IH1 r2 IH2|n r1 IH1|r1 IH1]; simpl; intros w s' c k L Hk.
  - destruct L as (x & -> & Q). simpl. rewrite Q. apply Hk.
  - destruct L as [Hne Hq]. apply plus_complete; auto.
  - destruct L as (w1 & w2 & -> & L1 & L2). rewrite <- app_assoc.
    apply IH1; [assumption|]. intros c'. apply IH2; assumption.
  - apply IH1; [assumption|]. intros c'. apply Hk.
  - destruct L as [-> | L].
    + simpl. destruct (RegExp.run r1 s' c k); [discriminate | apply Hk].
    + specialize (IH1 w s' c k L Hk).
      destruct (RegExp.run r1 (w ++ s') c k); [discriminate | contradiction].
Qed.

End RunFacts.

(** [/^r$/] matches exactly the words of [r]. *)
Lemma run_atEnd_iff (r : RegExp.node) (s : RegExp.input) (c : RegExp.captures) :
  RegExp.run r s c RegExp.atEnd <> None <-> RegExp.lang r s.
Proof.
  split.
  - intros H. destruct (RegExp.run r s c RegExp.atEnd) as [res|] eqn:E; [|easy].
    apply run_sound in E as (w & s' & c' & -> & L & E).
    destruct s'; [|discriminate]. now rewrite app_nil_r.
  - intros L. rewrite <- (app_nil_r s). apply run_complete; [assumption|].
    intros c'. discriminate.
Qed.

Lemma accepts_iff (r : RegExp.node) (s : RegExp.input) :
  RegExp.accepts r s = true <-> RegExp.lang r s.
Proof.
  rewrite <- (run_atEnd_iff r s []). unfold RegExp.accepts.
  destruct (RegExp.run r s [] RegExp.atEnd); split; congruence.
Qed.

Lemma exec_iff (r : RegExp.node) (s : string) :
  RegExp.exec r s <> None <-> RegExp.lang r (list_ascii_of_string s).
Proof. apply run_atEnd_iff. Qed.

(** ** The key pattern *)

Lemma run_versionPart {R} (v rest : RegExp.input) (c : RegExp.captures)
    (k : RegExp.input -> RegExp.captures -> option R) (res : R) :
  versionWord v ->
  stopsAt RegExp.digit rest ->
  k rest c = Some res ->
  RegExp.run versionPart (v ++ rest) c k = Some res.
Proof.
  intros (v1 & v2 & v3 & -> & [N1 D1] & [N2 D2] & [N3 D3]) Hstop Hk.
  rewrite <- app_assoc. cbn [app]. rewrite <- app_assoc. cbn [app].
  unfold versionPart, digits, dot. cbn [RegExp.run].
  apply plus_stops; [assumption | assumption | reflexivity |].
  cbn.
  apply plus_stops; [assumption | assumption | reflexivity |].
  cbn.
  apply plus_stops; assumption.
Qed.

Lemma in_suffixes {A} (l b : list A) :
  In b (suffixes l) <-> exists a, l = a ++ b.
Proof.
  induction l as [|x l IH].
  - simpl. split.
    + intros [<-|[]]. now exists [].
    + intros (a & H). symmetry in H. apply app_eq_nil in H as [_ ->]. now left.
  - cbn [suffixes In]. rewrite IH. split.
    + intros [<-|(a & ->)]; [now exists [] | now exists (x :: a)].
    + intros ([|y a] & H); simpl in H; [now left|].
      injection H as -> ->. right. now exists a.
Qed.

Lemma run_platformPart (tp : option RegExp.input) (c : RegExp.captures) :
  match tp with
  | Some t => t <> [] /\ forallb RegExp.anyChar t = true
  | None => True
  end ->
  RegExp.run platformPart (platformSuffix tp) c RegExp.atEnd
  = Some (platformCaptures tp ++ c).
Proof.
  destruct tp as [t|]; [|reflexivity]. intros [Hne Hany].
  unfold platformPart, dash. cbn.
  rewrite <- (app_nil_r t) at 1.
  erewrite plus_stops; [reflexivity | assumption | assumption | exact I |].
  cbn. now rewrite Nat.sub_0_r, firstn_all.
Qed.

Lemma lang_tailPart_head (b : RegExp.input) :
  RegExp.lang tailPart b -> exists b', b = "-"%char :: b'.
Proof.
  intros (w1 & w2 & -> & (x & -> & Hx) & _). simpl in *.
  unfold RegExp.only in Hx. apply Ascii.eqb_eq in Hx as ->. eauto.
Qed.

Lemma run_tailPart (v : RegExp.input) (tp : option RegExp.input)
    (c : RegExp.captures) :
  versionWord v ->
  match tp with
  | Some t => t <> [] /\ forallb RegExp.anyChar t = true
  | None => True
  end ->
  RegExp.run tailPart ("-"%char :: v ++ platformSuffix tp) c RegExp.atEnd
  = Some (platformCaptures tp ++ (2, v) :: c).
Proof.
  intros Hv Htp. unfold tailPart, dash. cbn [RegExp.run].
  change (RegExp.only "-" "-") with true. cbv iota.
  apply run_versionPart; [assumption | now destruct tp |].
  rewrite firstn_consumed. now apply run_platformPart.
Qed.

Lemma versionWord_chars (v : RegExp.input) :
  versionWord v ->
  v <> [] /\ forallb (fun x => RegExp.digit x || RegExp.only "." x) v = true.
Proof.
  intros (v1 & v2 & v3 & -> & [N1 D1] & [N2 D2] & [N3 D3]). split.
  - destruct v1; easy.
  - rewrite !forallb_app. cbn [forallb]. rewrite !forallb_app. cbn [forallb].
    assert (W : forall w, forallb RegExp.digit w = true ->
                forallb (fun x => RegExp.digit x || RegExp.only "." x) w = true).
    { intros w. rewrite !forallb_forall. intros H x Hx. now rewrite (H x Hx). }
    rewrite !W by assumption. reflexivity.
Qed.

(** The greedy [.+] of the id cannot end later than the id does. *)
Lemma tailPart_rejects_later (v : RegExp.input) (tp : option RegExp.input)
    (a b : RegExp.input) :
  versionWord v ->
  match tp with
  | Some t => forallb (fun b => negb (RegExp.accepts tailPart b))
                (suffixes ("-"%char :: t)) = true
  | None => True
  end ->
  a <> [] -> "-"%char :: v ++ platformSuffix tp = a ++ b ->
  ~ RegExp.lang tailPart b.
Proof.
  intros Hv Htp Ha E L.
  destruct a as [|x a]; [easy|]. injection E as _ E.
  apply app_eq_app in E as (l & [[E1 E2] | [E1 E2]]).
  - (* [b] starts inside the version, or is the whole suffix *)
    destruct l as [|y l].
    + simpl in E2. subst b. destruct tp as [t|]; cbn [platformSuffix app] in *.
      * rewrite forallb_forall in Htp.
        specialize (Htp ("-"%char :: t)). cbn [suffixes In] in Htp.
        specialize (Htp (or_introl eq_refl)).
        apply accepts_iff in L. now rewrite L in Htp.
      * apply lang_tailPart_head in L as (b' & L). discriminate.
    + subst b. apply lang_tailPart_head in L as (b' & L). injection L as -> _.
      apply versionWord_chars in Hv as [_ Hv]. rewrite E1 in Hv.
      rewrite forallb_app in Hv. apply andb_prop in Hv as [_ Hv].
      simpl in Hv. discriminate.
  - (* [b] is a suffix of the platform suffix *)
    destruct tp as [t|]; cbn [platformSuffix app] in *.
    + rewrite forallb_forall in Htp. specialize (Htp b).
      apply accepts_iff in L. rewrite L in Htp.
      assert (In b (suffixes ("-"%char :: t))) as Hin
        by (apply in_suffixes; now exists l).
      specialize (Htp Hin). discriminate.
    + symmetry in E2. apply app_eq_nil in E2 as [_ ->].
      apply lang_tailPart_head in L as (b' & L). discriminate.
Qed.

Lemma run_ExtensionKeyRegex (w v : RegExp.input) (tp : option RegExp.input) :
  idWord w -> versionWord v ->
  match tp with
  | Some t => t <> [] /\ forallb RegExp.anyChar t = true /\
              forallb (fun b => negb (RegExp.accepts tailPart b))
                (suffixes ("-"%char :: t)) = true
  | None => True
  end ->
  RegExp.run ExtensionKeyRegex (w ++ "-"%char :: v ++ platformSuffix tp) []
    RegExp.atEnd
  = Some (platformCaptures tp ++ [(2, v); (1, w)]).
Proof.
  intros (pub & nm & -> & Np & Dp & Nn & Dn) Hv Htp.
  unfold ExtensionKeyRegex, idPart, dot. cbn [RegExp.run].
  set (s := (pub ++ "."%char :: nm) ++ "-"%char :: v ++ platformSuffix tp).
  assert (Es : s = pub ++ "."%char :: nm ++ "-"%char :: v ++ platformSuffix tp)
    by (unfold s; now rewrite <- app_assoc).
  rewrite Es at 1.
  apply plus_stops; [assumption | assumption | reflexivity |].
  change (RegExp.only "." ".") with true. cbv iota.
  apply plus_first; [assumption | assumption | |].
  - unfold s. rewrite firstn_consumed.
    apply run_tailPart; [assumption | destruct tp; tauto].
  - intros a b Ha _ E.
    match goal with |- ?x = None => destruct x eqn:F; [|reflexivity] end.
    exfalso. eapply (tailPart_rejects_later v tp a b); eauto.
    + destruct tp; tauto.
    + eapply run_atEnd_iff. rewrite F. discriminate.
Qed.

Lemma qualifiedId_idWord (s : string) :
  qualifiedId s -> idWord (list_ascii_of_string s).
Proof.
  intros (pub & nm & -> & Np & Dp & Nn & Dn).
  exists (list_ascii_of_string pub), (list_ascii_of_string nm).
  rewrite list_ascii_of_string_app. cbn.
  rewrite !list_ascii_of_string_nil. auto.
Qed.

Lemma integerRun_digitRun (s : string) :
  integerRun s -> digitRun (list_ascii_of_string s).
Proof.
  intros [N D]. split; [now rewrite list_ascii_of_string_nil | assumption].
Qed.

Lemma threeIntegerRuns_versionWord (s : string) :
  threeIntegerRuns s -> versionWord (list_ascii_of_string s).
Proof.
  intros (a & b & c & -> & Ha & Hb & Hc).
  exists (list_ascii_of_string a), (list_ascii_of_string b),
    (list_ascii_of_string c).
  rewrite list_ascii_of_string_app. cbn. rewrite list_ascii_of_string_app. cbn.
  auto using integerRun_digitRun.
Qed.

Lemma toString_chars (k : ExtensionKey.t) :
  list_ascii_of_string (ExtensionKey.toString k)
  = list_ascii_of_string (ExtensionKey.id k)
    ++ "-"%char :: list_ascii_of_string (ExtensionKey.version k)
    ++ platformSuffix (platformOf k).
Proof.
  unfold ExtensionKey.toString, platformOf.
  rewrite list_ascii_of_string_app. cbn. rewrite list_ascii_of_string_app.
  now destruct (ExtensionKey.targetPlatform k =? TargetPlatform.UNDEFINED)%string.
Qed.

Lemma cleanPlatform_spec (tp : string) :
  cleanPlatform tp = true ->
  tp <> "" /\
  forallb RegExp.anyChar (list_ascii_of_string tp) = true /\
  forallb (fun b => negb (RegExp.accepts tailPart b))
    (suffixes ("-"%char :: list_ascii_of_string tp)) = true.
Proof.
  unfold cleanPlatform. intros H.
  apply andb_prop in H as [H H3]. apply andb_prop in H as [H1 H2].
  apply truthy_true_iff in H1. auto.
Qed.

Lemma parse_toString (k : ExtensionKey.t) :
  qualifiedId (ExtensionKey.id k) ->
  threeIntegerRuns (ExtensionKey.version k) ->
  ExtensionKey.targetPlatform k = TargetPlatform.UNDEFINED
  \/ cleanPlatform (ExtensionKey.targetPlatform k) = true ->
  ExtensionKey.parse (ExtensionKey.toString k) = Some k.
Proof.
  intros Hid Hv Htp.
  assert (Nid : truthy (ExtensionKey.id k) = true).
  { apply truthy_true_iff. destruct Hid as (pub & nm & -> & Np & _).
    destruct pub; easy. }
  assert (Nv : truthy (ExtensionKey.version k) = true).
  { apply truthy_true_iff.
    destruct Hv as (a & b & c & -> & [Na _] & _). destruct a; easy. }
  unfold ExtensionKey.parse, RegExp.exec. rewrite toString_chars.
  rewrite run_ExtensionKeyRegex;
    [ | now apply qualifiedId_idWord | now apply threeIntegerRuns_versionWord | ].
  - destruct k as [i v p]. unfold platformOf. cbn [ExtensionKey.targetPlatform
      ExtensionKey.id ExtensionKey.version] in *.
    destruct (String.eqb_spec p TargetPlatform.UNDEFINED) as [->|Hp];
      cbn [platformCaptures app RegExp.group Nat.eqb];
      rewrite !string_of_list_ascii_of_string, Nid, Nv; cbn [andb].
    + reflexivity.
    + destruct Htp as [Htp|Htp]; [contradiction|].
      apply cleanPlatform_spec in Htp as (Np & _).
      apply truthy_true_iff in Np.
      unfold ExtensionKey.orUndefined, truthyOpt. now rewrite Np.
  - unfold platformOf.
    destruct (String.eqb_spec (ExtensionKey.targetPlatform k)
                TargetPlatform.UNDEFINED) as [E|E]; [exact I|].
    destruct Htp as [Htp|Htp]; [contradiction|].
    apply cleanPlatform_spec in Htp as (Np & Hany & Hfree).
    rewrite list_ascii_of_string_nil. auto.
Qed.

Lemma isValid_cleanPlatform (tp : string) :
  TargetPlatform.isValid tp = true ->
  tp = TargetPlatform.UNDEFINED \/ cleanPlatform tp = true.
Proof.
  unfold TargetPlatform.isValid. intros H.
  apply existsb_exists in H as (v & Hin & E).
  apply String.eqb_eq in E. subst tp.
  unfold TargetPlatform.values in Hin. cbn [In] in Hin.
  repeat (destruct Hin as [<-|Hin]; [first [now left | right; vm_compute; reflexivity]|]).
  contradiction.
Qed.

Lemma equals_refl (cmp : string -> string -> Z) (k : ExtensionKey.t) :
  ExtensionKey.equals cmp k k = true.
Proof.
  unfold ExtensionKey.equals.
  now rewrite areSameExtensions_refl, !String.eqb_refl.
Qed.

(** C2, as amended.  [parse (toString k)] is a key equal to [k] for every
    key whose id is a non-empty publisher without dot, a dot and a non-empty
    name without line terminator, whose version is three dot-separated
    integer runs, and whose target platform is a member of
    [TargetPlatform]. *)
Theorem parse_toString_roundtrip
    (compareIgnoreCase : string -> string -> Z) (k : ExtensionKey.t) :
  qualifiedId (ExtensionKey.id k) ->
  threeIntegerRuns (ExtensionKey.version k) ->
  TargetPlatform.isValid (ExtensionKey.targetPlatform k) = true ->
  exists k',
    ExtensionKey.parse (ExtensionKey.toString k) = Some k' /\
    ExtensionKey.equals compareIgnoreCase k' k = true.
Proof.
  intros Hid Hv Htp. exists k. split.
  - apply parse_toString; auto using isValid_cleanPlatform.
  - apply equals_refl.
Qed.

Lemma parse_toString_roundtrip_witness :
  exists k',
    ExtensionKey.parse "pub.name-1.2.3-win32-x64" = Some k' /\
    ExtensionKey.equals strings.compareIgnoreCase k'
      {| ExtensionKey.id := "pub.name"; ExtensionKey.version := "1.2.3";
         ExtensionKey.targetPlatform := TargetPlatform.WIN32_X64 |} = true.
Proof.
  apply (parse_toString_roundtrip strings.compareIgnoreCase
           {| ExtensionKey.id := "pub.name"; ExtensionKey.version := "1.2.3";
              ExtensionKey.targetPlatform := TargetPlatform.WIN32_X64 |}).
  - exists "pub", "name". repeat split; discriminate.
  - exists "1", "2", "3". repeat split; discriminate.
  - reflexivity.
Defined.

(** C2, as stated, fails: the id [.a] contains a dot, but the pattern wants
    at least one code unit that is not a dot before the first dot, so the
    string that [toString] builds does not parse. *)
Lemma parse_toString_dot_first_fails :
  let k := {| ExtensionKey.id := ".a"; ExtensionKey.version := "1.2.3";
              ExtensionKey.targetPlatform := TargetPlatform.UNDEFINED |} in
  containsDot (ExtensionKey.id k) /\
  threeIntegerRuns (ExtensionKey.version k) /\
  TargetPlatform.isValid (ExtensionKey.targetPlatform k) = true /\
  ExtensionKey.toString k = ".a-1.2.3" /\
  ExtensionKey.parse (ExtensionKey.toString k) = None.
Proof.
  cbv zeta. split; [|split; [|repeat split]].
  - left. reflexivity.
  - exists "1", "2", "3". repeat split; discriminate.
Qed.

Lemma lang_only (x : ascii) (w : RegExp.input) :
  RegExp.lang (RegExp.Char (RegExp.only x)) w -> w = [x].
Proof.
  intros (y & -> & Hy). unfold RegExp.only in Hy.
  now apply Ascii.eqb_eq in Hy as ->.
Qed.

Lemma lang_idPart (w : RegExp.input) : RegExp.lang idPart w -> idWord w.
Proof.
  intros (pub & r & -> & [Np Dp] & d & nm & -> & Hd & [Nn Dn]).
  apply lang_only in Hd as ->. exists pub, nm. auto.
Qed.

Lemma lang_versionPart (w : RegExp.input) :
  RegExp.lang versionPart w -> versionWord w.
Proof.
  intros (v1 & r1 & -> & H1 & d1 & r2 & -> & Hd1 &
          v2 & r3 & -> & H2 & d2 & v3 & -> & Hd2 & H3).
  apply lang_only in Hd1 as ->. apply lang_only in Hd2 as ->.
  exists v1, v2, v3. auto.
Qed.

Lemma lang_tailPart (w : RegExp.input) :
  RegExp.lang tailPart w ->
  exists v tp,
    w = "-"%char :: v ++ platformSuffix tp /\ versionWord v /\
    match tp with
    | Some t => t <> [] /\ forallb RegExp.anyChar t = true
    | None => True
    end.
Proof.
  intros (d & r & -> & Hd & v & o & -> & Hv & Ho).
  apply lang_only in Hd as ->. apply lang_versionPart in Hv.
  destruct Ho as [-> | (d' & t & -> & Hd' & Ht)].
  - exists v, None. auto.
  - apply lang_only in Hd' as ->. exists v, (Some t). auto.
Qed.

Lemma string_of_list_ascii_nil (w : list ascii) :
  string_of_list_ascii w = "" <-> w = [].
Proof. destruct w; simpl; split; congruence. Qed.

Lemma digitRun_integerRun (w : RegExp.input) :
  digitRun w -> integerRun (string_of_list_ascii w).
Proof.
  intros [N D]. split.
  - now rewrite string_of_list_ascii_nil.
  - now rewrite list_ascii_of_string_of_list_ascii.
Qed.

Lemma idWord_qualifiedId (w : RegExp.input) :
  idWord w -> qualifiedId (string_of_list_ascii w).
Proof.
  intros (pub & nm & -> & Np & Dp & Nn & Dn).
  exists (string_of_list_ascii pub), (string_of_list_ascii nm).
  rewrite string_of_list_ascii_app, !string_of_list_ascii_nil,
    !list_ascii_of_string_of_list_ascii.
  auto.
Qed.

Lemma versionWord_threeIntegerRuns (v : RegExp.input) :
  versionWord v -> threeIntegerRuns (string_of_list_ascii v).
Proof.
  intros (v1 & v2 & v3 & -> & H1 & H2 & H3).
  exists (string_of_list_ascii v1), (string_of_list_ascii v2),
    (string_of_list_ascii v3).
  rewrite string_of_list_ascii_app. cbn. rewrite string_of_list_ascii_app.
  auto using digitRun_integerRun.
Qed.

(** The words of the regular expression are key strings. *)
Lemma lang_ExtensionKeyRegex_KeyPattern (key : string) :
  RegExp.lang ExtensionKeyRegex (list_ascii_of_string key) -> KeyPattern key.
Proof.
  intros (w & r & E & Hw & Hr).
  apply lang_idPart in Hw.
  apply lang_tailPart in Hr as (v & tp & -> & Hv & Htp).
  exists (string_of_list_ascii w), (string_of_list_ascii v),
    (option_map string_of_list_ascii tp).
  split; [|split; [|split]].
  - rewrite <- (string_of_list_ascii_of_string key), E.
    rewrite string_of_list_ascii_app. cbn. rewrite string_of_list_ascii_app.
    now destruct tp.
  - now apply idWord_qualifiedId.
  - now apply versionWord_threeIntegerRuns.
  - destruct tp as [t|]; [|exact I]. cbn.
    rewrite string_of_list_ascii_nil, list_ascii_of_string_of_list_ascii.
    exact Htp.
Qed.

(** The pattern read off the regular expression is within the pattern that
    the specification words. *)
Lemma KeyPattern_SpecKeyPattern (key : string) :
  KeyPattern key -> SpecKeyPattern key.
Proof.
  intros (i & v & p & E & (pub & nm & -> & _) & Hv & _).
  exists (pub ++ "." ++ nm)%string, v, p. repeat split; try assumption.
  unfold containsDot. rewrite list_ascii_of_string_app.
  apply in_or_app. right. now left.
Qed.

Lemma SpecKeyPattern_dot_and_dash (key : string) :
  SpecKeyPattern key ->
  In "."%char (list_ascii_of_string key) /\
  In "-"%char (list_ascii_of_string key).
Proof.
  intros (i & v & p & -> & Hi & _).
  rewrite list_ascii_of_string_app. split; apply in_or_app.
  - now left.
  - right. now left.
Qed.

Lemma parse_some_KeyPattern (key : string) (k : ExtensionKey.t) :
  ExtensionKey.parse key = Some k -> KeyPattern key.
Proof.
  intros E. apply lang_ExtensionKeyRegex_KeyPattern, exec_iff.
  unfold ExtensionKey.parse in E.
  destruct (RegExp.exec ExtensionKeyRegex key); discriminate.
Qed.

(** [parse] also returns [null] outside of the pattern as the specification
    words it, which asks less of the id. *)
Lemma parse_null_unless_SpecKeyPattern (key : string) :
  ~ SpecKeyPattern key -> ExtensionKey.parse key = None.
Proof.
  intros H. destruct (ExtensionKey.parse key) as [k|] eqn:E; [|reflexivity].
  exfalso. eapply H, KeyPattern_SpecKeyPattern, parse_some_KeyPattern, E.
Qed.

(** C5.  [parse] is a total function: it returns a key or [null], and it
    returns [null] for every string that is not of the form
    [<id>-<major.minor.patch>[-<targetPlatform>]] with a dotted id, the
    anchored pattern of line 20. *)
Theorem parse_null_unless_KeyPattern (key : string) :
  ~ KeyPattern key -> ExtensionKey.parse key = None.
Proof.
  intros H. destruct (ExtensionKey.parse key) as [k|] eqn:E; [|reflexivity].
  exfalso. eapply H, parse_some_KeyPattern, E.
Qed.

(** The two strings of the specification that are not keys. *)
Lemma parse_null_unless_KeyPattern_witness :
  ExtensionKey.parse "not-a-version" = None /\
  ExtensionKey.parse "pub.name" = None.
Proof.
  split; apply parse_null_unless_KeyPattern; intros H;
    apply KeyPattern_SpecKeyPattern, SpecKeyPattern_dot_and_dash in H
      as [Hdot Hdash];
    simpl in *; intuition discriminate.
Defined.

(** ** [ExtensionKey.create] *)

(** On well-typed arguments the constructor does not throw and builds the
    key that [new] builds. *)
Lemma construct_well_typed (i v : string) (p : option string) :
  ExtensionKey.construct
    (Is {| ExtensionObject.identifier_id := Is i |}) (Is v)
    (match p with Some p => Is p | None => Undefined end)
  = Return
      (let k := ExtensionKey.new (idOnly i) v p in
       {| ExtensionKey.id := Is (ExtensionKey.id k);
          ExtensionKey.version := Is (ExtensionKey.version k);
          ExtensionKey.targetPlatform := Is (ExtensionKey.targetPlatform k) |}).
Proof.
  destruct p; reflexivity.
Qed.

(** [create] on an object: the two reads of lines 25-26 and the
    constructor. *)
Lemma create_object (e : ExtensionObject.t) :
  ExtensionKey.create (Is e)
  = if truthyObject (ExtensionObject.manifest e)
    then ExtensionKey.construct (ExtensionObject.identifier e)
           (prop (ExtensionObject.manifest e) ExtensionObject.manifest_version)
           (ExtensionObject.targetPlatform e)
    else if nullish (ExtensionObject.properties e)
    then Throw (TypeError "targetPlatform")
    else ExtensionKey.construct (ExtensionObject.identifier e)
           (ExtensionObject.version e)
           (prop (ExtensionObject.properties e)
              ExtensionObject.properties_targetPlatform).
Proof.
  unfold ExtensionKey.create, read. cbn.
  destruct (ExtensionObject.manifest e) as [| |m|[|]]; cbn;
    try reflexivity;
    destruct (ExtensionObject.properties e) as [| |q|c]; reflexivity.
Qed.

(** With a manifest, [create] hands [manifest.version] and the top-level
    [targetPlatform] to the constructor. *)
Lemma create_installed (e : ExtensionObject.t) (m : ExtensionObject.manifest_t) :
  ExtensionObject.manifest e = Is m ->
  ExtensionKey.create (Is e)
  = ExtensionKey.construct (ExtensionObject.identifier e)
      (ExtensionObject.manifest_version m)
      (ExtensionObject.targetPlatform e).
Proof.
  intros H. rewrite create_object, H. reflexivity.
Qed.

(** Without a manifest, [create] hands [version] and
    [properties.targetPlatform] to the constructor. *)
Lemma create_remote (e : ExtensionObject.t) (q : ExtensionObject.properties_t) :
  truthyObject (ExtensionObject.manifest e) = false ->
  ExtensionObject.properties e = Is q ->
  ExtensionKey.create (Is e)
  = ExtensionKey.construct (ExtensionObject.identifier e)
      (ExtensionObject.version e)
      (ExtensionObject.properties_targetPlatform q).
Proof.
  intros Hm Hq. rewrite create_object, Hm, Hq. reflexivity.
Qed.

(** The constructor throws exactly when the identifier is [undefined] or
    [null]. *)
Lemma construct_throws (i : slot ExtensionObject.identifier_t)
    (v p : slot string) (err : error) :
  ExtensionKey.construct i v p = Throw err <->
  nullish i = true /\ err = TypeError "id".
Proof.
  unfold ExtensionKey.construct, read.
  destruct (nullish i); cbn.
  - split; [intros H; injection H as <-; auto | now intros [_ ->]].
  - split; [discriminate | intros [H _]; discriminate H].
Qed.

(** The key that the constructor builds keeps the version it was given, and
    the target platform unless that was [undefined]. *)
Lemma construct_returns (i : slot ExtensionObject.identifier_t)
    (v p : slot string) (k : ExtensionKey.object) :
  ExtensionKey.construct i v p = Return k ->
  ExtensionKey.id k = prop i ExtensionObject.identifier_id /\
  ExtensionKey.version k = v /\
  ExtensionKey.targetPlatform k
  = match p with Undefined => Is TargetPlatform.UNDEFINED | given => given end.
Proof.
  unfold ExtensionKey.construct, read.
  destruct (nullish i); cbn; [discriminate|].
  intros H. injection H as <-. auto.
Qed.

(** Unless both the version and the target platform it is given are
    strings, the constructor builds a key that lacks one of them. *)
Lemma construct_degenerate (i : slot ExtensionObject.identifier_t)
    (v p : slot string) (k : ExtensionKey.object) :
  ExtensionKey.construct i v p = Return k ->
  (forall v' p', v = Is v' -> p = Is p' -> False) ->
  (forall v', ExtensionKey.version k <> Is v') \/
  (forall p', ExtensionKey.targetPlatform k <> Is p') \/
  ExtensionKey.targetPlatform k = Is TargetPlatform.UNDEFINED.
Proof.
  intros Hk Hnot. apply construct_returns in Hk as (_ & Hv & Hp).
  rewrite Hv, Hp.
  destruct v as [| |v'|b]; try (left; discriminate).
  destruct p as [| |p'|c].
  - right. right. reflexivity.
  - right. left. discriminate.
  - destruct (Hnot v' p' eq_refl eq_refl).
  - right. left. discriminate.
Qed.

(** What [create] throws, and when: the [TypeError] of the first property
    read off [undefined] or [null]. *)
Lemma create_throws (x : slot ExtensionObject.t) (err : error) :
  ExtensionKey.create x = Throw err <->
  (nullish x = true /\ err = TypeError "manifest") \/
  (nullish x = false /\
   truthyObject (prop x ExtensionObject.manifest) = false /\
   nullish (prop x ExtensionObject.properties) = true /\
   err = TypeError "targetPlatform") \/
  (nullish x = false /\
   (truthyObject (prop x ExtensionObject.manifest) = true \/
    nullish (prop x ExtensionObject.properties) = false) /\
   nullish (prop x ExtensionObject.identifier) = true /\
   err = TypeError "id").
Proof.
  destruct x as [| |e|b].
  1, 2: cbn; split;
    [ intros H; injection H as <-; now left
    | intros [[_ ->]|[(H & _)|(H & _)]]; [reflexivity|discriminate H..] ].
  - rewrite create_object. cbn [nullish prop].
    destruct (truthyObject (ExtensionObject.manifest e)) eqn:Hm.
    + rewrite construct_throws. split.
      * intros [Hi ->]. right. right. auto.
      * intros [[H _]|[(_ & H & _)|(_ & _ & Hi & ->)]];
          [discriminate H..|auto].
    + destruct (nullish (ExtensionObject.properties e)) eqn:Hq.
      * split.
        -- intros H. injection H as <-. right. left. auto.
        -- intros [[H _]|[(_ & _ & _ & ->)|(_ & [H|H] & _)]];
             [discriminate H|reflexivity|discriminate H..].
      * rewrite construct_throws. split.
        -- intros [Hi ->]. right. right. auto.
        -- intros [[H _]|[(_ & _ & H & _)|(_ & _ & Hi & ->)]];
             [discriminate H..|auto].
  - cbn. split.
    + intros H. injection H as <-. right. left. auto.
    + intros [[H _]|[(_ & _ & _ & ->)|(_ & [H|H] & _)]];
        [discriminate H|reflexivity|discriminate H..].
Qed.

(** C4, as amended.  [create] does not check the shape of its argument and
    throws no error of its own.  On an argument of neither shape it throws
    only the [TypeError] of a property read off [undefined] or [null]:
    [manifest] when the argument itself is [undefined] or [null],
    [targetPlatform] when [manifest] is falsy and [properties] is [undefined]
    or [null], [id] when the identifier is [undefined] or [null].  In every
    other case it returns a key whose version is not a string, or whose
    target platform is not a string or has defaulted to [UNDEFINED]. *)
Theorem create_neither_shape (x : slot ExtensionObject.t) :
  ~ ExtensionObject.installedShape x ->
  ~ ExtensionObject.remoteShape x ->
  (forall err,
     ExtensionKey.create x = Throw err <->
     (nullish x = true /\ err = TypeError "manifest") \/
     (nullish x = false /\
      truthyObject (prop x ExtensionObject.manifest) = false /\
      nullish (prop x ExtensionObject.properties) = true /\
      err = TypeError "targetPlatform") \/
     (nullish x = false /\
      (truthyObject (prop x ExtensionObject.manifest) = true \/
       nullish (prop x ExtensionObject.properties) = false) /\
      nullish (prop x ExtensionObject.identifier) = true /\
      err = TypeError "id")) /\
  ((forall err, ExtensionKey.create x <> Throw err) ->
   exists k,
     ExtensionKey.create x = Return k /\
     ((forall v, ExtensionKey.version k <> Is v) \/
      (forall p, ExtensionKey.targetPlatform k <> Is p) \/
      ExtensionKey.targetPlatform k = Is TargetPlatform.UNDEFINED)).
Proof.
  intros Hinst Hrem. split; [intros err; apply create_throws|].
  intros Hno.
  destruct (ExtensionKey.create x) as [k|err] eqn:Hc;
    [|now destruct (Hno err)].
  exists k. split; [reflexivity|].
  destruct x as [| |e|b]; [discriminate Hc..| |discriminate Hc].
  rewrite create_object in Hc.
  destruct (truthyObject (ExtensionObject.manifest e)) eqn:Hm.
  - apply construct_degenerate in Hc; [exact Hc|].
    intros v p Hv Hp. apply Hinst.
    destruct (ExtensionObject.manifest e) as [| |m|b] eqn:Em;
      [discriminate Hv..| |discriminate Hv].
    exists e, m, v, p. auto.
  - destruct (nullish (ExtensionObject.properties e)) eqn:Hq;
      [discriminate Hc|].
    apply construct_degenerate in Hc; [exact Hc|].
    intros v p Hv Hp. apply Hrem.
    destruct (ExtensionObject.properties e) as [| |q|b] eqn:Eq;
      [discriminate Hp..| |discriminate Hp].
    exists e, v, q, p. auto.
Qed.

(** The argument [{ manifest: {} }]: the constructor throws on the missing
    identifier. *)
Lemma create_neither_shape_witness :
  ExtensionKey.create
    (Is {| ExtensionObject.identifier := Undefined;
           ExtensionObject.manifest :=
             Is {| ExtensionObject.manifest_version := Undefined |};
           ExtensionObject.targetPlatform := Undefined;
           ExtensionObject.version := Undefined;
           ExtensionObject.properties := Undefined |})
  = Throw (TypeError "id").
Proof.
  apply (create_neither_shape
           (Is {| ExtensionObject.identifier := Undefined;
                  ExtensionObject.manifest :=
                    Is {| ExtensionObject.manifest_version := Undefined |};
                  ExtensionObject.targetPlatform := Undefined;
                  ExtensionObject.version := Undefined;
                  ExtensionObject.properties := Undefined |})).
  - intros (e & m & v & p & He & Hm & Hv & _).
    injection He as <-. cbn in Hm. injection Hm as <-. discriminate Hv.
  - intros (e & v & q & p & He & Hv & _).
    injection He as <-. discriminate Hv.
  - right. right. cbn. auto.
Defined.

(** C4, as stated, fails: an argument with an identifier, [properties] and
    nothing else has neither shape, and [create] returns a key without
    version for it. *)
Lemma create_returns_degenerate_key :
  let x :=
    Is {| ExtensionObject.identifier :=
            Is {| ExtensionObject.identifier_id := Is "pub.name" |};
          ExtensionObject.manifest := Undefined;
          ExtensionObject.targetPlatform := Undefined;
          ExtensionObject.version := Undefined;
          ExtensionObject.properties :=
            Is {| ExtensionObject.properties_targetPlatform := Undefined |} |} in
  ~ ExtensionObject.installedShape x /\
  ~ ExtensionObject.remoteShape x /\
  ExtensionKey.create x
  = Return {| ExtensionKey.id := Is "pub.name";
              ExtensionKey.version := Undefined;
              ExtensionKey.targetPlatform := Is TargetPlatform.UNDEFINED |}.
Proof.
  cbv zeta. split; [|split].
  - intros (e & m & v & p & He & Hm & _). injection He as <-. discriminate Hm.
  - intros (e & v & q & p & He & Hv & _). injection He as <-. discriminate Hv.
  - reflexivity.
Qed.

(** ** [groupByExtension] *)

Section GroupByExtensionFacts.

Variable compareIgnoreCase : string -> string -> Z.
Context {T : Type}.
Variable getExtensionIdentifier : T -> IExtensionIdentifier.

Let same := sameItem compareIgnoreCase getExtensionIdentifier.
Let add := addExtension compareIgnoreCase getExtensionIdentifier.
Let find := findGroup compareIgnoreCase getExtensionIdentifier.
Let member := hasMember compareIgnoreCase getExtensionIdentifier.

Lemma findGroup_Some_lt (G : list (list T)) (x : T) (i : nat) :
  find G x = Some i -> i < List.length G.
Proof.
  revert i. induction G as [|g G IH]; simpl; intros i H; [discriminate|].
  destruct (hasMember compareIgnoreCase getExtensionIdentifier x g).
  - injection H as <-. lia.
  - destruct (find G x) as [j|] eqn:E; [|discriminate].
    injection H as <-. specialize (IH j eq_refl). lia.
Qed.

Lemma findGroup_None (G : list (list T)) (x : T) :
  find G x = None <-> existsb (fun e => same e x) (concat G) = false.
Proof.
  induction G as [|g G IH]; simpl; [tauto|].
  rewrite existsb_app. unfold hasMember. fold (same).
  change (fun e => areSameExtensions compareIgnoreCase
                     (getExtensionIdentifier e) (getExtensionIdentifier x))
    with (fun e => same e x).
  destruct (existsb (fun e => same e x) g); simpl.
  - split; discriminate.
  - rewrite <- IH. destruct (find G x); simpl; split; congruence.
Qed.

Lemma pushInto_length (i : nat) (x : T) (G : list (list T)) :
  List.length (pushInto i x G) = List.length G.
Proof.
  revert i. induction G as [|g G IH]; intros [|i]; simpl; auto.
Qed.

Lemma pushInto_concat (i : nat) (x : T) (G : list (list T)) :
  i < List.length G -> Permutation (concat (pushInto i x G)) (x :: concat G).
Proof.
  revert i. induction G as [|g G IH]; intros i Hi; simpl in Hi; [lia|].
  destruct i as [|i]; simpl.
  - rewrite <- app_assoc. simpl.
    symmetry. apply Permutation_middle.
  - rewrite (IH i) by lia. symmetry. apply Permutation_middle.
Qed.

Lemma addExtension_concat (G : list (list T)) (x : T) :
  Permutation (concat (add G x)) (x :: concat G).
Proof.
  unfold add, addExtension. fold find.
  destruct (find G x) as [i|] eqn:E.
  - apply pushInto_concat. eapply findGroup_Some_lt; eassumption.
  - rewrite concat_app. cbn [concat]. rewrite app_nil_r.
    symmetry. apply Permutation_cons_append.
Qed.

Lemma addExtension_length (G : list (list T)) (x : T) :
  List.length (add G x)
  = List.length G
    + (if existsb (fun e => same e x) (concat G) then 0 else 1).
Proof.
  unfold add, addExtension. fold find.
  destruct (find G x) as [i|] eqn:E.
  - rewrite pushInto_length.
    destruct (existsb (fun e => same e x) (concat G)) eqn:F; [lia|].
    apply findGroup_None in F. unfold find in *. congruence.
  - apply findGroup_None in E. rewrite E, length_app. reflexivity.
Qed.

Lemma existsb_Permutation (f : T -> bool) (l l' : list T) :
  Permutation l l' -> existsb f l = existsb f l'.
Proof.
  intros P. induction P; simpl; try congruence.
  now rewrite !orb_assoc, (orb_comm (f y)).
Qed.

Lemma leaders_Permutation (l seen seen' : list T) :
  Permutation seen seen' ->
  leaders compareIgnoreCase getExtensionIdentifier seen l
  = leaders compareIgnoreCase getExtensionIdentifier seen' l.
Proof.
  revert seen seen'. induction l as [|x l IH]; intros seen seen' P; simpl.
  - reflexivity.
  - rewrite (existsb_Permutation _ _ _ P).
    rewrite (IH (seen ++ [x]) (seen' ++ [x])); [reflexivity|].
    now apply Permutation_app_tail.
Qed.

Lemma fold_addExtension_concat (l : list T) (G : list (list T)) :
  Permutation (concat (fold_left add l G)) (concat G ++ l).
Proof.
  revert G. induction l as [|x l IH]; intros G; simpl.
  - now rewrite app_nil_r.
  - rewrite IH, addExtension_concat. apply Permutation_middle.
Qed.

Lemma fold_addExtension_length (l : list T) (G : list (list T)) :
  List.length (fold_left add l G)
  = List.length G
    + List.length (leaders compareIgnoreCase getExtensionIdentifier (concat G) l).
Proof.
  revert G. induction l as [|x l IH]; intros G; simpl.
  - lia.
  - rewrite IH, addExtension_length.
    rewrite (leaders_Permutation l (concat (add G x)) (concat G ++ [x])).
    + fold same. destruct (existsb (fun e => same e x) (concat G)); simpl; lia.
    + rewrite addExtension_concat. apply Permutation_cons_append.
Qed.

Lemma groupByExtension_concat (l : list T) :
  Permutation
    (concat (groupByExtension compareIgnoreCase getExtensionIdentifier l)) l.
Proof. apply (fold_addExtension_concat l []). Qed.

Lemma groupByExtension_length (l : list T) :
  List.length (groupByExtension compareIgnoreCase getExtensionIdentifier l)
  = List.length (leaders compareIgnoreCase getExtensionIdentifier [] l).
Proof. apply (fold_addExtension_length l []). Qed.

End GroupByExtensionFacts.

Section IdentityClasses.

Variable compareIgnoreCase : string -> string -> Z.
Hypothesis compareIgnoreCase_zero_sym' :
  forall x y, compareIgnoreCase x y = 0%Z -> compareIgnoreCase y x = 0%Z.
Context {T : Type}.
Variable getExtensionIdentifier : T -> IExtensionIdentifier.

Let same := sameItem compareIgnoreCase getExtensionIdentifier.
Let leadersOf := leaders compareIgnoreCase getExtensionIdentifier.
Let transitive := transitiveOn compareIgnoreCase getExtensionIdentifier.

Lemma sameItem_refl (x : T) : same x x = true.
Proof. apply areSameExtensions_refl. Qed.

Lemma sameItem_sym (x y : T) : same x y = same y x.
Proof. apply areSameExtensions_sym, compareIgnoreCase_zero_sym'. Qed.

Lemma leaders_incl (l seen : list T) : incl (leadersOf seen l) l.
Proof.
  revert seen. induction l as [|x l IH]; intros seen; simpl; [easy|].
  destruct (existsb _ seen).
  - apply incl_tl, IH.
  - apply incl_cons; [now left | apply incl_tl, IH].
Qed.

Lemma leaders_fresh (l seen : list T) (r e : T) :
  In r (leadersOf seen l) -> In e seen -> same e r = false.
Proof.
  revert seen. induction l as [|x l IH]; intros seen Hr He; simpl in Hr; [easy|].
  destruct (existsb (fun e => sameItem compareIgnoreCase getExtensionIdentifier e x) seen) eqn:E.
  - apply (IH (seen ++ [x])); [assumption | apply in_or_app; now left].
  - destruct Hr as [<-|Hr].
    + destruct (same e x) eqn:F; [|reflexivity].
      assert (existsb (fun e => sameItem compareIgnoreCase getExtensionIdentifier e x) seen = true)
        by (apply existsb_exists; eauto).
      congruence.
    + apply (IH (seen ++ [x])); [assumption | apply in_or_app; now left].
Qed.

Lemma leaders_pairwise (l seen : list T) :
  ForallOrdPairs (fun a b => same a b = false) (leadersOf seen l).
Proof.
  revert seen. induction l as [|x l IH]; intros seen; simpl; [constructor|].
  destruct (existsb _ seen); [apply IH|].
  constructor; [|apply IH].
  apply Forall_forall. intros r Hr.
  apply (leaders_fresh l (seen ++ [x])); [assumption|].
  apply in_or_app. right. now left.
Qed.

Lemma leaders_cover (l seen reps : list T) :
  transitive (seen ++ l) ->
  incl reps seen ->
  (forall e, In e seen -> exists r, In r reps /\ same r e = true) ->
  forall x, In x l ->
    exists r, In r (reps ++ leadersOf seen l) /\ same r x = true.
Proof.
  revert seen reps.
  induction l as [|x l IH]; intros seen reps Htr Hincl Hcov y Hy; [easy|].
  assert (Htr' : transitive ((seen ++ [x]) ++ l))
    by (now rewrite <- app_assoc).
  simpl.
  destruct (existsb (fun e => sameItem compareIgnoreCase getExtensionIdentifier e x) seen) eqn:E.
  - assert (Hx : exists r, In r reps /\ same r x = true).
    { apply existsb_exists in E as (e & He & Hex).
      destruct (Hcov e He) as (r & Hr & Hre). exists r. split; [assumption|].
      apply (Htr r e x); auto using in_or_app, in_eq. }
    destruct Hy as [<-|Hy].
    + destruct Hx as (r & Hr & Hrx). exists r. auto using in_or_app.
    + apply (IH (seen ++ [x]) reps); auto using incl_appl.
      intros e He. apply in_app_or in He as [He|[<-|[]]]; auto.
  - destruct Hy as [<-|Hy].
    + exists x. split; [apply in_or_app; right; now left | apply sameItem_refl].
    + destruct (IH (seen ++ [x]) (reps ++ [x])) with (x := y)
        as (r & Hr & Hry); auto.
      * apply incl_app; [now apply incl_appl | apply incl_appr, incl_refl].
      * intros e He. apply in_app_or in He as [He|[<-|[]]].
        -- destruct (Hcov e He) as (r & Hr & Hre). exists r.
           auto using in_or_app.
        -- exists x. split; [apply in_or_app; right; now left
                            | apply sameItem_refl].
      * exists r. split; [|assumption].
        rewrite <- app_assoc in Hr. exact Hr.
Qed.

Lemma leaders_classRepresentatives (l : list T) :
  transitive l ->
  classRepresentatives compareIgnoreCase getExtensionIdentifier l
    (leadersOf [] l).
Proof.
  intros Htr. split; [apply leaders_incl | split; [apply leaders_pairwise|]].
  intros x Hx.
  apply (leaders_cover l [] [] Htr (incl_refl _)); [intros e []|assumption].
Qed.

(** A family of pairwise different items is no longer than a family that
    covers it. *)
Lemma representatives_le (l reps1 : list T) :
  transitive l ->
  forall reps2,
    incl reps1 l -> incl reps2 l ->
    ForallOrdPairs (fun a b => same a b = false) reps1 ->
    (forall r, In r reps1 -> exists r', In r' reps2 /\ same r' r = true) ->
    List.length reps1 <= List.length reps2.
Proof.
  intros Htr. induction reps1 as [|r reps1 IH]; intros reps2 H1 H2 Hp Hc.
  - simpl. lia.
  - inversion Hp as [|? ? Hr Hp']; subst.
    destruct (Hc r (in_eq _ _)) as (r' & Hr' & Hs).
    destruct (in_split _ _ Hr') as (A & B & ->).
    rewrite length_app. simpl.
    assert (List.length reps1 <= List.length (A ++ B)) as Hle.
    { apply IH.
      - eapply incl_tran; [apply incl_tl, incl_refl | exact H1].
      - intros z Hz. apply H2. apply in_app_or in Hz as [Hz|Hz];
          auto using in_or_app, in_cons.
      - assumption.
      - intros x Hx. destruct (Hc x (in_cons _ _ _ Hx)) as (x' & Hx' & Hxs).
        exists x'. split; [|assumption].
        apply in_app_or in Hx' as [Hx'|[<-|Hx']]; auto using in_or_app.
        exfalso. rewrite Forall_forall in Hr. specialize (Hr x Hx).
        assert (same r x = true); [|congruence].
        apply (Htr r r' x).
        + apply H1, in_eq.
        + apply H2, in_or_app. right. now left.
        + apply H1, in_cons, Hx.
        + now rewrite sameItem_sym.
        + assumption. }
    rewrite length_app in Hle. lia.
Qed.

Lemma classRepresentatives_length (l reps1 reps2 : list T) :
  transitive l ->
  classRepresentatives compareIgnoreCase getExtensionIdentifier l reps1 ->
  classRepresentatives compareIgnoreCase getExtensionIdentifier l reps2 ->
  List.length reps1 = List.length reps2.
Proof.
  intros Htr (I1 & P1 & C1) (I2 & P2 & C2).
  apply Nat.le_antisymm; apply (representatives_le l); auto.
Qed.

End IdentityClasses.

(** C6, as amended.  The groups partition the input: their concatenation is
    a permutation of it.  When [areSameExtensions] is transitive on the
    identifiers of the input, the input has identity classes, and the number
    of groups is the number of these classes: it is the length of every
    family of class representatives. *)
Theorem groupByExtension_partition
    (compareIgnoreCase : string -> string -> Z)
    (Hcmp : forall x y, compareIgnoreCase x y = 0%Z ->
                        compareIgnoreCase y x = 0%Z)
    {T : Type} (getExtensionIdentifier : T -> IExtensionIdentifier)
    (extensions : list T) :
  let groups :=
    groupByExtension compareIgnoreCase getExtensionIdentifier extensions in
  Permutation (concat groups) extensions /\
  (transitiveOn compareIgnoreCase getExtensionIdentifier extensions ->
   (exists reps,
      classRepresentatives compareIgnoreCase getExtensionIdentifier
        extensions reps) /\
   (forall reps,
      classRepresentatives compareIgnoreCase getExtensionIdentifier
        extensions reps ->
      List.length groups = List.length reps)).
Proof.
  cbv zeta. split; [apply groupByExtension_concat|].
  intros Htr.
  pose proof (leaders_classRepresentatives compareIgnoreCase
                getExtensionIdentifier extensions Htr) as Hl.
  split; [eauto|].
  intros reps Hreps. rewrite groupByExtension_length.
  eapply classRepresentatives_length; eauto.
Qed.

Lemma groupByExtension_partition_witness :
  let extensions := [idOnly "a.one"; idOnly "A.One"; idOnly "b.two"] in
  let groups :=
    groupByExtension strings.compareIgnoreCase (fun x => x) extensions in
  Permutation (concat groups) extensions /\ List.length groups = 2.
Proof.
  cbv zeta.
  destruct (groupByExtension_partition strings.compareIgnoreCase
              compareIgnoreCase_zero_sym (fun x => x)
              [idOnly "a.one"; idOnly "A.One"; idOnly "b.two"])
    as [Hperm Hcount].
  split; [exact Hperm|].
  assert (Htr : transitiveOn strings.compareIgnoreCase (fun x => x)
                  [idOnly "a.one"; idOnly "A.One"; idOnly "b.two"]).
  { intros x y z Hx Hy Hz. simpl in Hx, Hy, Hz.
    destruct Hx as [<-|[<-|[<-|[]]]];
      destruct Hy as [<-|[<-|[<-|[]]]];
      destruct Hz as [<-|[<-|[<-|[]]]];
      vm_compute; intros; congruence. }
  destruct (Hcount Htr) as [_ Hlen].
  apply (Hlen [idOnly "a.one"; idOnly "b.two"]).
  split; [|split].
  - intros x Hx. simpl in *. tauto.
  - repeat constructor.
  - intros x Hx. simpl in Hx. destruct Hx as [<-|[<-|[<-|[]]]].
    + exists (idOnly "a.one"). split; [now left | reflexivity].
    + exists (idOnly "a.one"). split; [now left | reflexivity].
    + exists (idOnly "b.two"). split; [right; now left | reflexivity].
Defined.

(** C6, as stated, fails: [areSameExtensions] is not transitive, and the
    number of groups depends on the order of the input.  The same three
    items form two groups in one order and one group in another, and the
    item without uuid alone represents every class. *)
Lemma groupByExtension_count_depends_on_order :
  let a := {| id := "x"; uuid := Some "1" |} in
  let b := {| id := "x"; uuid := None |} in
  let c := {| id := "x"; uuid := Some "2" |} in
  groupByExtension strings.compareIgnoreCase (fun x => x) [a; c; b]
  = [[a; b]; [c]] /\
  groupByExtension strings.compareIgnoreCase (fun x => x) [b; a; c]
  = [[b; a; c]] /\
  Permutation [a; c; b] [b; a; c] /\
  classRepresentatives strings.compareIgnoreCase (fun x => x) [a; c; b] [b] /\
  List.length (groupByExtension strings.compareIgnoreCase (fun x => x) [a; c; b])
  <> List.length [b].
Proof.
  cbv zeta. split; [reflexivity|]. split; [reflexivity|]. split; [|split].
  - apply perm_trans with ([{| id := "x"; uuid := Some "1" |};
                             {| id := "x"; uuid := None |};
                             {| id := "x"; uuid := Some "2" |}]).
    + apply perm_skip, perm_swap.
    + apply perm_swap.
  - split; [|split].
    + intros x Hx. simpl in *. tauto.
    + repeat constructor.
    + intros x Hx. exists {| id := "x"; uuid := None |}.
      split; [now left|].
      simpl in Hx. destruct Hx as [<-|[<-|[<-|[]]]]; reflexivity.
  - vm_compute. discriminate.
Qed.

(** ** [getExtensionDependencies] *)

Lemma identifierEqb_eq (a b : IExtensionIdentifier) :
  identifierEqb a b = true <-> a = b.
Proof.
  unfold identifierEqb. destruct a as [i u], b as [j v]. simpl.
  rewrite andb_true_iff, String.eqb_eq. split.
  - intros [-> H]. destruct u as [u|], v as [v|]; simpl in H; try discriminate.
    + apply String.eqb_eq in H. now subst.
    + reflexivity.
  - intros [= -> ->]. split; [reflexivity|].
    destruct v; simpl; [apply String.eqb_refl | reflexivity].
Qed.

Lemma list_sum_filter_drop {A : Type} (f : A -> nat) (P Q : A -> bool)
    (l : list A) (x : A) :
  (forall e, Q e = true -> P e = true) ->
  In x l -> P x = true -> Q x = false ->
  list_sum (map f (filter Q l)) + f x <= list_sum (map f (filter P l)).
Proof.
  intros HQP. induction l as [|y l IH]; intros Hin HP HQ; [easy|].
  assert (Hmono : list_sum (map f (filter Q l)) <= list_sum (map f (filter P l))).
  { clear IH Hin. induction l as [|z l IHl]; simpl; [lia|].
    destruct (Q z) eqn:Qz.
    - rewrite (HQP z Qz). simpl. lia.
    - destruct (P z); simpl; lia. }
  simpl. destruct Hin as [->|Hin].
  - rewrite HP, HQ. simpl. lia.
  - specialize (IH Hin HP HQ).
    destruct (Q y) eqn:Qy.
    + rewrite (HQP y Qy). simpl. lia.
    + destruct (P y); simpl; lia.
Qed.

Section GetExtensionDependenciesFacts.

Variable compareIgnoreCase : string -> string -> Z.
Variable installedExtensions : list IExtension.

Let matches := matchesId compareIgnoreCase.
Let body := iteration compareIgnoreCase installedExtensions.
Let loop := whileLoop compareIgnoreCase installedExtensions.
Let pending := pendingIds installedExtensions.

Lemma iteration_cases (i : string) (extensions : list string)
    (dependencies : list IExtension) :
  iterationCase compareIgnoreCase installedExtensions
    i extensions dependencies (body i extensions dependencies).
Proof.
  unfold body, iteration.
  destruct (truthy i) eqn:Ti; simpl.
  - apply truthy_true_iff in Ti.
    destruct (forallb (fun e => negb (matchesId compareIgnoreCase i e))
                dependencies) eqn:F.
    + destruct (filter (matchesId compareIgnoreCase i) installedExtensions)
        as [|e0 [|e1 l]] eqn:E.
      * apply iteration_drop. right. right. rewrite E. discriminate.
      * now apply iteration_accept.
      * apply iteration_drop. right. right. rewrite E. discriminate.
    + apply iteration_drop. auto.
  - apply iteration_drop. left.
    unfold truthy in Ti. apply negb_false_iff, String.eqb_eq in Ti. exact Ti.
Qed.

(** An accepted extension is installed, matches the id, and is not yet
    among the dependencies. *)
Lemma accepted_fresh (i : string) (dependencies : list IExtension)
    (ext0 : IExtension) :
  forallb (fun e => negb (matches i e)) dependencies = true ->
  filter (matches i) installedExtensions = [ext0] ->
  In ext0 installedExtensions /\ matches i ext0 = true /\
  acceptable dependencies ext0 = true /\ ~ In ext0 dependencies.
Proof.
  intros Hall Hf.
  assert (Hin : In ext0 (filter (matches i) installedExtensions))
    by (rewrite Hf; now left).
  apply filter_In in Hin as [Hin Hm]. rewrite forallb_forall in Hall.
  repeat split; try assumption.
  - unfold acceptable. apply negb_true_iff.
    destruct (existsb _ dependencies) eqn:E; [|reflexivity].
    apply existsb_exists in E as (d & Hd & Heq).
    apply identifierEqb_eq in Heq. specialize (Hall d Hd).
    unfold matches, matchesId in *. rewrite Heq, Hm in Hall. discriminate.
  - intros Hd. specialize (Hall ext0 Hd). rewrite Hm in Hall. discriminate.
Qed.

Lemma acceptable_app (dependencies : list IExtension) (ext0 e : IExtension) :
  acceptable (dependencies ++ [ext0]) e = true ->
  acceptable dependencies e = true.
Proof.
  unfold acceptable. rewrite existsb_app, negb_orb.
  intros H. now apply andb_prop in H as [H _].
Qed.

Lemma acceptable_self (dependencies : list IExtension) (ext0 : IExtension) :
  acceptable (dependencies ++ [ext0]) ext0 = false.
Proof.
  unfold acceptable. rewrite existsb_app. simpl.
  replace (identifierEqb (identifier ext0) (identifier ext0)) with true
    by (symmetry; now apply identifierEqb_eq).
  now rewrite orb_true_r.
Qed.

(** Every iteration takes one id off the queue, and puts on it no more ids
    than the accepted extension takes out of [pendingIds]. *)
Lemma iteration_decreases (i : string) (extensions : list string)
    (dependencies : list IExtension) :
  let '(extensions', dependencies') := body i extensions dependencies in
  List.length extensions' + pending dependencies'
  <= List.length extensions + pending dependencies.
Proof.
  destruct (iteration_cases i extensions dependencies)
    as [ext0 Hi Hall Hf|_]; [|lia].
  destruct (accepted_fresh i dependencies ext0 Hall Hf) as (Hin & _ & Hacc & _).
  rewrite length_app. unfold pending, pendingIds.
  pose proof (list_sum_filter_drop (fun e => List.length (dependencyIds e))
                (acceptable dependencies) (acceptable (dependencies ++ [ext0]))
                installedExtensions ext0
                (acceptable_app dependencies ext0) Hin Hacc
                (acceptable_self dependencies ext0)).
  lia.
Qed.

(** The loop ends when it is given fuel for every id that is on the queue
    or can still be put on it. *)
Lemma whileLoop_terminates (fuel : nat) :
  forall extensions dependencies,
    List.length extensions + pending dependencies <= fuel ->
    exists result, loop fuel extensions dependencies = Some result.
Proof.
  induction fuel as [|fuel IH]; intros extensions dependencies Hle.
  - destruct extensions; [simpl; eauto | simpl in Hle; lia].
  - destruct extensions as [|i rest]; [simpl; eauto|].
    simpl. fold body.
    pose proof (iteration_decreases i rest dependencies) as Hd.
    destruct (body i rest dependencies) as [extensions' dependencies'].
    apply IH. simpl in Hle. lia.
Qed.

Lemma whileLoop_more_fuel (fuel fuel' : nat) :
  forall extensions dependencies result,
    loop fuel extensions dependencies = Some result ->
    fuel <= fuel' ->
    loop fuel' extensions dependencies = Some result.
Proof.
  revert fuel'. induction fuel as [|fuel IH]; intros fuel' extensions
    dependencies result H Hle.
  - destruct extensions; [|discriminate]. now destruct fuel'.
  - destruct extensions as [|i rest]; [now destruct fuel'|].
    destruct fuel' as [|fuel']; [lia|]. simpl in H |- *. fold body in H |- *.
    destruct (body i rest dependencies) as [extensions' dependencies'].
    apply (IH fuel'); [assumption | lia].
Qed.

(** An invariant of the loop body holds of the result. *)
Lemma whileLoop_invariant
    (Inv : list string -> list IExtension -> Prop) :
  (forall i rest dependencies,
     Inv (i :: rest) dependencies ->
     Inv (fst (body i rest dependencies)) (snd (body i rest dependencies))) ->
  forall fuel extensions dependencies result,
    Inv extensions dependencies ->
    loop fuel extensions dependencies = Some result ->
    Inv [] result.
Proof.
  intros Hstep. induction fuel as [|fuel IH];
    intros extensions dependencies result Hinv H.
  - destruct extensions; [|discriminate]. now injection H as <-.
  - destruct extensions as [|i rest]; [now injection H as <-|].
    simpl in H. fold body in H.
    pose proof (Hstep i rest dependencies Hinv) as Hs.
    destruct (body i rest dependencies) as [extensions' dependencies'].
    simpl in Hs. eapply IH; eassumption.
Qed.

Lemma pendingIds_nil :
  pending []
  = list_sum (map (fun e => List.length (dependencyIds e)) installedExtensions).
Proof.
  unfold pending, pendingIds. f_equal. f_equal.
  induction installedExtensions as [|e l IH]; simpl; [reflexivity|].
  now rewrite IH.
Qed.

Lemma getExtensionDependenciesWithin_bound (extension : IExtension) :
  exists dependencies,
    getExtensionDependenciesWithin compareIgnoreCase installedExtensions
      (enqueueBound installedExtensions extension) extension
    = Some dependencies.
Proof.
  apply whileLoop_terminates. rewrite pendingIds_nil. unfold enqueueBound. lia.
Qed.

Lemma getExtensionDependencies_eq (extension : IExtension) (fuel : nat)
    (dependencies : list IExtension) :
  getExtensionDependenciesWithin compareIgnoreCase installedExtensions fuel
    extension = Some dependencies ->
  getExtensionDependencies compareIgnoreCase installedExtensions extension
  = dependencies.
Proof.
  intros H. unfold getExtensionDependencies.
  destruct (getExtensionDependenciesWithin_bound extension) as (r & Hr).
  rewrite Hr.
  destruct (Nat.le_ge_cases fuel (enqueueBound installedExtensions extension)).
  - pose proof (whileLoop_more_fuel _ _ _ _ _ H H0) as H'.
    unfold getExtensionDependenciesWithin in Hr. fold loop in Hr. congruence.
  - pose proof (whileLoop_more_fuel _ _ _ _ _ Hr H0) as H'.
    unfold getExtensionDependenciesWithin in H. fold loop in H. congruence.
Qed.

(** The accepted dependencies are distinct installed extensions. *)
Lemma iteration_NoDup_incl (i : string) (rest : list string)
    (dependencies : list IExtension) :
  NoDup dependencies /\ incl dependencies installedExtensions ->
  NoDup (snd (body i rest dependencies)) /\
  incl (snd (body i rest dependencies)) installedExtensions.
Proof.
  intros [Hnd Hincl].
  destruct (iteration_cases i rest dependencies) as [ext0 Hi Hall Hf|_];
    simpl; [|auto].
  destruct (accepted_fresh i dependencies ext0 Hall Hf) as (Hin & _ & _ & Hnot).
  split.
  - apply NoDup_app; [assumption | repeat constructor; easy |].
    intros x Hx [<-|[]]. contradiction.
  - apply incl_app; [assumption|]. intros x [<-|[]]. assumption.
Qed.

(** Every id on the queue has been declared, and every accepted dependency
    is the only installed match of a declared, non-empty id. *)
Lemma iteration_origin (root : IExtension) (i : string) (rest : list string)
    (dependencies : list IExtension) :
  let Inv extensions dependencies :=
    (forall j, In j extensions -> declaredBy root dependencies j) /\
    (forall e, In e dependencies ->
       exists j, declaredBy root dependencies j /\ j <> "" /\
                 filter (matches j) installedExtensions = [e]) in
  Inv (i :: rest) dependencies ->
  Inv (fst (body i rest dependencies)) (snd (body i rest dependencies)).
Proof.
  cbv zeta. intros [Hq Hd].
  destruct (iteration_cases i rest dependencies) as [ext0 Hi Hall Hf|_];
    simpl; [|split; auto using in_cons].
  assert (Hmono : forall j, declaredBy root dependencies j ->
                            declaredBy root (dependencies ++ [ext0]) j).
  { intros j (declarer & Hdecl & Hj). exists declarer. split; [|assumption].
    destruct Hdecl as [->|Hin]; [now left | right; apply in_or_app; now left]. }
  split.
  - intros j Hj. apply in_app_or in Hj as [Hj|Hj]; [auto using in_cons|].
    exists ext0. split; [right; apply in_or_app; right; now left | assumption].
  - intros e He. apply in_app_or in He as [He|[<-|[]]].
    + destruct (Hd e He) as (j & Hj & Hne & Hfj). eauto.
    + exists i. auto using in_eq.
Qed.

(** An id is settled when the loop has nothing left to do for it. *)
Lemma iteration_settles (root : IExtension) (i : string) (rest : list string)
    (dependencies : list IExtension) :
  let settled dependencies j :=
    j = "" \/ existsb (matches j) dependencies = true \/
    List.length (filter (matches j) installedExtensions) <> 1 in
  let Inv extensions dependencies :=
    forall j, declaredBy root dependencies j ->
              In j extensions \/ settled dependencies j in
  Inv (i :: rest) dependencies ->
  Inv (fst (body i rest dependencies)) (snd (body i rest dependencies)).
Proof.
  cbv zeta. intros Hinv.
  destruct (iteration_cases i rest dependencies) as [ext0 Hi Hall Hf|Hdrop];
    simpl.
  - destruct (accepted_fresh i dependencies ext0 Hall Hf) as (_ & Hm & _ & _).
    intros j (declarer & Hdecl & Hj).
    assert (Hcase : declarer = ext0 \/ declaredBy root dependencies j).
    { destruct Hdecl as [->|Hin]; [right; exists root; auto|].
      apply in_app_or in Hin as [Hin|[<-|[]]]; [|now left].
      right. exists declarer. auto. }
    destruct Hcase as [->|Hold]; [left; apply in_or_app; now right|].
    destruct (Hinv j Hold) as [[<-|Hj']|[Hs|[Hs|Hs]]].
    + right. right. left. rewrite existsb_app. simpl. rewrite Hm.
      now rewrite orb_true_r.
    + left. apply in_or_app. now left.
    + right. now left.
    + right. right. left. rewrite existsb_app, Hs. reflexivity.
    + right. right. now right.
  - intros j Hj. destruct (Hinv j Hj) as [[<-|Hj']|Hs]; auto.
    right. destruct Hdrop as [->|[Hex|Hlen]].
    + now left.
    + right. left. clear -Hex. fold matches in Hex.
      induction dependencies as [|d l IH]; simpl in *; [discriminate|].
      destruct (matches i d); simpl in *; auto.
    + right. right. exact Hlen.
Qed.

(** The body on an id that is not empty and not accepted yet. *)
Lemma iteration_accepts (i : string) (extensions : list string)
    (dependencies : list IExtension) (ext0 : IExtension) :
  i <> "" ->
  forallb (fun e => negb (matches i e)) dependencies = true ->
  filter (matches i) installedExtensions = [ext0] ->
  body i extensions dependencies
  = (extensions ++ dependencyIds ext0, dependencies ++ [ext0]).
Proof.
  intros Hi Hall Hf. apply truthy_true_iff in Hi.
  unfold body, iteration. fold matches. now rewrite Hi, Hall, Hf.
Qed.

Lemma iteration_drops (i : string) (extensions : list string)
    (dependencies : list IExtension) :
  i <> "" ->
  forallb (fun e => negb (matches i e)) dependencies = true ->
  List.length (filter (matches i) installedExtensions) <> 1 ->
  body i extensions dependencies = (extensions, dependencies).
Proof.
  intros Hi Hall Hlen. apply truthy_true_iff in Hi.
  unfold body, iteration. fold matches. rewrite Hi, Hall. cbn [andb].
  destruct (filter (matches i) installedExtensions) as [|e0 [|e1 l]];
    try reflexivity.
  now elim Hlen.
Qed.

(** The loop only appends to the result list. *)
Lemma whileLoop_extends (fuel : nat) (extensions : list string)
    (dependencies result : list IExtension) :
  loop fuel extensions dependencies = Some result ->
  exists later, result = dependencies ++ later.
Proof.
  apply (whileLoop_invariant
           (fun _ d => exists later, d = dependencies ++ later)).
  - intros i rest d (later & ->).
    destruct (iteration_cases i rest (dependencies ++ later))
      as [ext0 _ _ _|_]; cbn [snd].
    + exists (later ++ [ext0]). now rewrite app_assoc.
    + now exists later.
  - exists []. now rewrite app_nil_r.
Qed.

Lemma getExtensionDependencies_run (root : IExtension) :
  loop (enqueueBound installedExtensions root) (dependencyIds root) []
  = Some (getExtensionDependencies compareIgnoreCase installedExtensions root).
Proof.
  destruct (getExtensionDependenciesWithin_bound root) as (dependencies & H).
  rewrite (getExtensionDependencies_eq _ _ _ H). exact H.
Qed.

(** From every state that a call passes through, the loop returns what the
    call returns. *)
Lemma atLoopHead_returns (root : IExtension) (extensions : list string)
    (dependencies : list IExtension) :
  atLoopHead compareIgnoreCase installedExtensions root
    extensions dependencies ->
  exists fuel,
    loop fuel extensions dependencies
    = Some (getExtensionDependencies compareIgnoreCase installedExtensions
              root).
Proof.
  induction 1 as [|i rest dependencies _ (fuel & IH)].
  - eexists. apply getExtensionDependencies_run.
  - destruct fuel as [|fuel]; [discriminate IH|].
    exists fuel. simpl in IH. fold body in IH |- *.
    now destruct (body i rest dependencies).
Qed.

(** A run of the loop from a state of the call ends in a state of the call
    with an empty queue. *)
Lemma whileLoop_atLoopHead (root : IExtension) (fuel : nat) :
  forall extensions dependencies result,
    atLoopHead compareIgnoreCase installedExtensions root
      extensions dependencies ->
    loop fuel extensions dependencies = Some result ->
    atLoopHead compareIgnoreCase installedExtensions root [] result.
Proof.
  apply (whileLoop_invariant
           (atLoopHead compareIgnoreCase installedExtensions root)).
  intros i rest dependencies. apply atLoopHead_next.
Qed.

Lemma atLoopHead_exit (root : IExtension) :
  atLoopHead compareIgnoreCase installedExtensions root []
    (getExtensionDependencies compareIgnoreCase installedExtensions root).
Proof.
  eapply whileLoop_atLoopHead;
    [apply atLoopHead_entry | apply getExtensionDependencies_run].
Qed.

End GetExtensionDependenciesFacts.

(** C7.  [getExtensionDependencies] terminates on every input: the loop
    returns within [enqueueBound] iterations, one for every id that is ever
    enqueued, and more fuel does not change the result.  The dependencies it
    accepts are distinct installed extensions, so there are no more
    acceptances than installed extensions. *)
Theorem getExtensionDependencies_terminates
    (compareIgnoreCase : string -> string -> Z)
    (installedExtensions : list IExtension) (extension : IExtension) :
  exists dependencies,
    (forall fuel,
       enqueueBound installedExtensions extension <= fuel ->
       getExtensionDependenciesWithin compareIgnoreCase installedExtensions
         fuel extension = Some dependencies) /\
    getExtensionDependencies compareIgnoreCase installedExtensions extension
    = dependencies /\
    NoDup dependencies /\
    incl dependencies installedExtensions /\
    List.length dependencies <= List.length installedExtensions.
Proof.
  destruct (getExtensionDependenciesWithin_bound compareIgnoreCase
              installedExtensions extension) as (dependencies & H).
  exists dependencies.
  assert (Hinv : NoDup dependencies /\ incl dependencies installedExtensions).
  { apply (whileLoop_invariant compareIgnoreCase installedExtensions
             (fun _ d => NoDup d /\ incl d installedExtensions))
      with (fuel := enqueueBound installedExtensions extension)
           (extensions := dependencyIds extension) (dependencies := []).
    - intros i rest d. apply iteration_NoDup_incl.
    - split; [constructor | easy].
    - exact H. }
  destruct Hinv as [Hnd Hincl].
  repeat split; try assumption.
  - intros fuel Hle.
    exact (whileLoop_more_fuel compareIgnoreCase installedExtensions
             _ _ _ _ _ H Hle).
  - eapply getExtensionDependencies_eq; eassumption.
  - now apply NoDup_incl_length.
Qed.

(** C1, as amended.  The root is among the returned dependencies exactly
    when it is reachable from its own dependencies: a non-empty id declared
    by the root or by a returned dependency has the root as its only
    installed match. *)
Theorem root_returned_iff_reachable
    (compareIgnoreCase : string -> string -> Z)
    (installedExtensions : list IExtension) (root : IExtension) :
  let dependencies :=
    getExtensionDependencies compareIgnoreCase installedExtensions root in
  In root dependencies <->
  exists i,
    declaredBy root dependencies i /\ i <> "" /\
    filter (matchesId compareIgnoreCase i) installedExtensions = [root].
Proof.
  cbv zeta.
  destruct (getExtensionDependenciesWithin_bound compareIgnoreCase
              installedExtensions root) as (dependencies & H).
  rewrite (getExtensionDependencies_eq _ _ _ _ _ H).
  unfold getExtensionDependenciesWithin in H.
  split.
  - intros Hin.
    pose proof (whileLoop_invariant compareIgnoreCase installedExtensions _
                  (iteration_origin compareIgnoreCase installedExtensions root)
                  _ _ _ _
                  (conj (fun j Hj => ex_intro _ root (conj (or_introl eq_refl) Hj))
                        (fun e (He : In e []) => match He with end))
                  H) as [_ Hd].
    exact (Hd root Hin).
  - intros (i & Hdecl & Hne & Hf).
    pose proof (whileLoop_invariant compareIgnoreCase installedExtensions _
                  (iteration_settles compareIgnoreCase installedExtensions root)
                  (enqueueBound installedExtensions root)
                  (dependencyIds root) [] dependencies) as Hs.
    cbv beta in Hs.
    destruct (Hs ltac:(intros j (declarer & [->|[]] & Hj); now left) H i Hdecl)
      as [[]|[Hi|[Hex|Hlen]]].
    + contradiction.
    + apply existsb_exists in Hex as (e & He & Hm).
      pose proof (whileLoop_invariant compareIgnoreCase installedExtensions
                    (fun _ d => NoDup d /\ incl d installedExtensions)
                    (fun i rest d =>
                       iteration_NoDup_incl compareIgnoreCase
                         installedExtensions i rest d)
                    _ _ _ _ (conj (NoDup_nil _) (incl_nil_l _)) H)
        as [_ Hincl].
      assert (Hin : In e (filter (matchesId compareIgnoreCase i)
                            installedExtensions))
        by (apply filter_In; auto).
      rewrite Hf in Hin. destruct Hin as [<-|[]]. exact He.
    + rewrite Hf in Hlen. now elim Hlen.
Qed.

Lemma root_returned_iff_reachable_witness :
  In a_one
    (getExtensionDependencies strings.compareIgnoreCase [a_one; a_two] a_one).
Proof.
  apply (root_returned_iff_reachable strings.compareIgnoreCase
           [a_one; a_two] a_one).
  exists "a.one". split; [|split].
  - exists a_two. split; [right; now left | now left].
  - discriminate.
  - reflexivity.
Defined.

(** C1, as stated, fails: with [a.one] and [a.two] installed and depending
    on each other, resolving from [a.one] returns [a.two] and then [a.one]
    itself. *)
Lemma getExtensionDependencies_returns_root :
  getExtensionDependencies strings.compareIgnoreCase [a_one; a_two] a_one
  = [a_two; a_one] /\
  In a_one
    (getExtensionDependencies strings.compareIgnoreCase [a_one; a_two] a_one).
Proof.
  split; [reflexivity | right; now left].
Qed.

(** C8, as amended.  Whenever a call of [getExtensionDependencies] is at the
    head of its loop with a first id on the queue that is not empty and not
    the same extension as an accepted dependency: when exactly one installed
    extension matches the id, the call goes on with the declared ids of that
    extension at the tail of the queue and the extension at the end of the
    result list, and what it returns has the extension right after the
    dependencies accepted so far; when none or several match, the call goes
    on with the rest of the queue and the result list as they are, and
    returns what the loop returns from there.  Every call returns, and what
    it returns is the result list as it is when the queue is empty. *)
Theorem getExtensionDependencies_unique_match_or_drop
    (compareIgnoreCase : string -> string -> Z)
    (installedExtensions : list IExtension) (extension : IExtension)
    (i : string) (rest : list string) (dependencies : list IExtension) :
  atLoopHead compareIgnoreCase installedExtensions extension
    (i :: rest) dependencies ->
  i <> "" ->
  forallb (fun e => negb (matchesId compareIgnoreCase i e)) dependencies
  = true ->
  let result :=
    getExtensionDependencies compareIgnoreCase installedExtensions extension in
  (forall ext0,
     filter (matchesId compareIgnoreCase i) installedExtensions = [ext0] ->
     atLoopHead compareIgnoreCase installedExtensions extension
       (rest ++ dependencyIds ext0) (dependencies ++ [ext0]) /\
     exists later, result = dependencies ++ ext0 :: later) /\
  (List.length (filter (matchesId compareIgnoreCase i) installedExtensions)
   <> 1 ->
   atLoopHead compareIgnoreCase installedExtensions extension
     rest dependencies /\
   exists fuel,
     whileLoop compareIgnoreCase installedExtensions fuel rest dependencies
     = Some result) /\
  (forall root,
     let returned :=
       getExtensionDependencies compareIgnoreCase installedExtensions root in
     getExtensionDependenciesWithin compareIgnoreCase installedExtensions
       (enqueueBound installedExtensions root) root
     = Some returned /\
     atLoopHead compareIgnoreCase installedExtensions root [] returned).
Proof.
  intros Hat Hi Hall result.
  split; [|split; [|intros root; split]].
  - intros ext0 Hf.
    pose proof (atLoopHead_next _ _ _ _ _ _ Hat) as Hnext.
    rewrite (iteration_accepts _ _ _ rest _ ext0 Hi Hall Hf) in Hnext.
    cbn [fst snd] in Hnext. split; [exact Hnext|].
    destruct (atLoopHead_returns _ _ _ _ _ Hnext) as (fuel & Hrun).
    destruct (whileLoop_extends _ _ _ _ _ _ Hrun) as (later & Hlater).
    exists later. subst result. rewrite Hlater, <- app_assoc. reflexivity.
  - intros Hlen.
    pose proof (atLoopHead_next _ _ _ _ _ _ Hat) as Hnext.
    rewrite (iteration_drops _ _ _ rest _ Hi Hall Hlen) in Hnext.
    cbn [fst snd] in Hnext. split; [exact Hnext|].
    exact (atLoopHead_returns _ _ _ _ _ Hnext).
  - apply getExtensionDependencies_run.
  - apply atLoopHead_exit.
Qed.

Lemma getExtensionDependencies_unique_match_or_drop_witness :
  exists later,
    getExtensionDependencies strings.compareIgnoreCase [a_one; a_two] a_one
    = [] ++ a_two :: later.
Proof.
  destruct (getExtensionDependencies_unique_match_or_drop
              strings.compareIgnoreCase [a_one; a_two] a_one "a.two" [] [])
    as [Haccept _].
  - exact (atLoopHead_entry strings.compareIgnoreCase [a_one; a_two] a_one).
  - discriminate.
  - reflexivity.
  - exact (proj2 (Haccept a_two eq_refl)).
Defined.

(** C8, as stated, fails for the empty id: line 153 drops it although
    exactly one installed extension matches it. *)
Lemma iteration_drops_empty_id :
  let anonymous := extensionWith "" [] in
  let root := extensionWith "a.root" [""] in
  forallb (fun e => negb (matchesId strings.compareIgnoreCase "" e)) [] = true /\
  filter (matchesId strings.compareIgnoreCase "") [anonymous] = [anonymous] /\
  iteration strings.compareIgnoreCase [anonymous] "" [] [] = ([], []) /\
  getExtensionDependencies strings.compareIgnoreCase [anonymous] root = [].
Proof. repeat split. Qed.

(** ** More on [ExtensionKey.parse] and [ExtensionKey.toString] *)

Section CaptureFacts.

Context {R : Type}.

Lemma run_sound_captures (r : RegExp.node) :
  forall (s : RegExp.input) (c : RegExp.captures)
         (k : RegExp.input -> RegExp.captures -> option R) (res : R),
    RegExp.run r s c k = Some res ->
    exists w s' c', s = w ++ s' /\ matched r w c c' /\ k s' c' = Some res.
Proof.
  induction r as [q|q|r1 IH1 r2 IH2|n r1 IH1|r1 IH1]; simpl; intros s c k res H.
  - destruct s as [|x s]; [discriminate|].
    destruct (q x) eqn:Q; [|discriminate].
    exists [x], s, c. repeat split; eauto.
  - apply plus_sound in H as (w & s' & -> & Hne & Hq & Hk).
    exists w, s', c. repeat split; assumption.
  - apply IH1 in H as (w1 & s1 & c1 & -> & L1 & H).
    apply IH2 in H as (w2 & s2 & c2 & -> & L2 & H).
    exists (w1 ++ w2), s2, c2. rewrite <- app_assoc. split; [reflexivity|].
    split; [|assumption]. exists w1, w2, c1. auto.
  - apply IH1 in H as (w & s' & c' & -> & L & H).
    rewrite firstn_consumed in H. exists w, s', ((n, w) :: c'). eauto.
  - destruct (RegExp.run r1 s c k) as [x|] eqn:E.
    + injection H as <-. apply IH1 in E as (w & s' & c' & -> & L & H).
      exists w, s', c'. auto.
    + exists [], s, c. auto.
Qed.

End CaptureFacts.

Lemma matched_lang (r : RegExp.node) :
  forall w c c', matched r w c c' -> RegExp.lang r w.
Proof.
  induction r as [q|q|r1 IH1 r2 IH2|n r1 IH1|r1 IH1]; simpl; intros w c c' H.
  - now destruct H.
  - now destruct H.
  - destruct H as (w1 & w2 & c1 & -> & H1 & H2).
    exists w1, w2. split; [reflexivity|]. split; [eapply IH1 | eapply IH2]; eassumption.
  - destruct H as (c1 & H & _). eapply IH1; eassumption.
  - destruct H as [[-> _]|H]; [now left | right; eapply IH1; eassumption].
Qed.

Lemma matched_idPart (w : RegExp.input) (c c' : RegExp.captures) :
  matched idPart w c c' -> c' = c.
Proof.
  intros (w1 & w2 & c1 & _ & [_ ->] & w3 & w4 & c2 & _ & [_ ->] & [_ ->]).
  reflexivity.
Qed.

Lemma matched_versionPart (w : RegExp.input) (c c' : RegExp.captures) :
  matched versionPart w c c' -> c' = c.
Proof.
  intros (? & ? & ? & _ & [_ ->] & ? & ? & ? & _ & [_ ->] &
          ? & ? & ? & _ & [_ ->] & ? & ? & ? & _ & [_ ->] & [_ ->]).
  reflexivity.
Qed.

(** What a successful match of the regular expression has captured. *)
Lemma exec_ExtensionKeyRegex_inv (s : string) (caps : RegExp.captures) :
  RegExp.exec ExtensionKeyRegex s = Some caps ->
  exists w v tp,
    list_ascii_of_string s = w ++ "-"%char :: v ++ platformSuffix tp /\
    idWord w /\ versionWord v /\
    match tp with
    | Some t => t <> [] /\ forallb RegExp.anyChar t = true
    | None => True
    end /\
    caps = platformCaptures tp ++ [(2, v); (1, w)].
Proof.
  unfold RegExp.exec. intros H.
  apply run_sound_captures in H as (w0 & s' & c' & E & M & Hend).
  destruct s'; [|discriminate]. injection Hend as ->.
  rewrite app_nil_r in E. rewrite E. clear E s.
  destruct M as (w & t & c1 & -> & (c0 & Mid & ->) & Mtail).
  pose proof (matched_idPart _ _ _ Mid) as ->.
  apply matched_lang, lang_idPart in Mid.
  destruct Mtail as (d & t' & c2 & -> & [Hd ->] & v & o & c3 & -> &
                     (c4 & Mv & ->) & Mo).
  apply lang_only in Hd as ->.
  pose proof (matched_versionPart _ _ _ Mv) as ->.
  apply matched_lang, lang_versionPart in Mv.
  destruct Mo as [[-> ->] | (c5 & (d' & p & c6 & -> & [Hd' ->] & c7 & [Hp ->] & ->) & ->)].
  - exists w, v, None. cbn. rewrite app_nil_r. auto.
  - apply lang_only in Hd' as ->. exists w, v, (Some p). cbn. auto 6.
Qed.

Lemma string_app_assoc (a b c : string) :
  ((a ++ b) ++ c)%string = (a ++ b ++ c)%string.
Proof.
  induction a as [|x a IH]; simpl; [reflexivity | now rewrite IH].
Qed.

Lemma string_app_nil_r (a : string) : (a ++ "")%string = a.
Proof.
  induction a as [|x a IH]; simpl; [reflexivity | now rewrite IH].
Qed.

(** The key that [parse] returns is made of the pieces of its argument. *)
Lemma parse_inv (s : string) (k : ExtensionKey.t) :
  ExtensionKey.parse s = Some k ->
  exists i v p,
    s = (i ++ "-" ++ v ++
         match p with Some q => "-" ++ q | None => "" end)%string /\
    qualifiedId i /\ threeIntegerRuns v /\
    match p with
    | Some q =>
        q <> "" /\ forallb RegExp.anyChar (list_ascii_of_string q) = true
    | None => True
    end /\
    k = keyOfParts i v p.
Proof.
  unfold ExtensionKey.parse. intros H.
  destruct (RegExp.exec ExtensionKeyRegex s) as [caps|] eqn:E; [|discriminate].
  apply exec_ExtensionKeyRegex_inv in E as (w & v & tp & Es & Hw & Hv & Htp & ->).
  exists (string_of_list_ascii w), (string_of_list_ascii v),
    (option_map string_of_list_ascii tp).
  split; [|split; [now apply idWord_qualifiedId|
           split; [now apply versionWord_threeIntegerRuns|]]].
  - rewrite <- (string_of_list_ascii_of_string s), Es.
    rewrite string_of_list_ascii_app. cbn. rewrite string_of_list_ascii_app.
    now destruct tp.
  - destruct tp as [t|]; cbn [platformCaptures app RegExp.group Nat.eqb] in H.
    + destruct (truthy (string_of_list_ascii w)
                && truthy (string_of_list_ascii v)); [|discriminate].
      injection H as <-. destruct Htp as [Nt At]. cbn.
      rewrite string_of_list_ascii_nil, list_ascii_of_string_of_list_ascii.
      split; [auto|].
      unfold ExtensionKey.orUndefined, truthyOpt, keyOfParts, ExtensionKey.new.
      assert (truthy (string_of_list_ascii t) = true) as ->
        by (apply truthy_true_iff; now rewrite string_of_list_ascii_nil).
      reflexivity.
    + destruct (truthy (string_of_list_ascii w)
                && truthy (string_of_list_ascii v)); [|discriminate].
      injection H as <-. split; [exact I | reflexivity].
Qed.

(** X1.  A key that [parse] returns has a qualified id, a version of three
    integer runs and a non-empty target platform without line terminator. *)
Theorem parse_returns_well_formed_parts (s : string) (k : ExtensionKey.t) :
  ExtensionKey.parse s = Some k ->
  qualifiedId (ExtensionKey.id k) /\
  threeIntegerRuns (ExtensionKey.version k) /\
  ExtensionKey.targetPlatform k <> "" /\
  forallb RegExp.anyChar (list_ascii_of_string (ExtensionKey.targetPlatform k))
  = true.
Proof.
  intros H. apply parse_inv in H as (i & v & p & _ & Hi & Hv & Hp & ->).
  cbn. split; [exact Hi|]. split; [exact Hv|].
  destruct p as [q|]; [exact Hp|]. split; [discriminate | reflexivity].
Qed.

Lemma parse_returns_well_formed_parts_witness :
  qualifiedId "pub.name" /\ threeIntegerRuns "1.2.3" /\
  "web" <> "" /\ forallb RegExp.anyChar (list_ascii_of_string "web") = true.
Proof.
  exact (parse_returns_well_formed_parts "pub.name-1.2.3-web"
           {| ExtensionKey.id := "pub.name"; ExtensionKey.version := "1.2.3";
              ExtensionKey.targetPlatform := "web" |} eq_refl).
Defined.

(** X2.  [toString] gives back the string that [parse] read, except that a
    platform suffix spelled [undefined] is lost: it parses to the sentinel,
    which [toString] does not print. *)
Theorem toString_parse (s : string) (k : ExtensionKey.t) :
  ExtensionKey.parse s = Some k ->
  ExtensionKey.toString k = s \/
  (ExtensionKey.targetPlatform k = TargetPlatform.UNDEFINED /\
   s = (ExtensionKey.toString k ++ "-undefined")%string).
Proof.
  intros H. apply parse_inv in H as (i & v & p & -> & _ & _ & _ & ->).
  unfold ExtensionKey.toString, keyOfParts. cbn.
  destruct p as [q|].
  - destruct (String.eqb_spec q TargetPlatform.UNDEFINED) as [->|Hq]; cbn.
    + right. split; [reflexivity|].
      rewrite string_app_nil_r, !string_app_assoc. reflexivity.
    + now left.
  - now left.
Qed.

Lemma toString_parse_witness :
  ExtensionKey.toString
    {| ExtensionKey.id := "pub.name"; ExtensionKey.version := "1.2.3";
       ExtensionKey.targetPlatform := TargetPlatform.UNDEFINED |}
  = "pub.name-1.2.3-undefined" \/
  (TargetPlatform.UNDEFINED = TargetPlatform.UNDEFINED /\
   "pub.name-1.2.3-undefined"
   = (ExtensionKey.toString
        {| ExtensionKey.id := "pub.name"; ExtensionKey.version := "1.2.3";
           ExtensionKey.targetPlatform := TargetPlatform.UNDEFINED |}
      ++ "-undefined")%string).
Proof.
  exact (toString_parse "pub.name-1.2.3-undefined"
           {| ExtensionKey.id := "pub.name"; ExtensionKey.version := "1.2.3";
              ExtensionKey.targetPlatform := TargetPlatform.UNDEFINED |}
           eq_refl).
Defined.

Lemma idWord_lang (w : RegExp.input) : idWord w -> RegExp.lang idPart w.
Proof.
  intros (pub & nm & -> & Np & Dp & Nn & Dn).
  exists pub, ("."%char :: nm). repeat split; try assumption.
  exists ["."%char], nm. repeat split; try assumption.
  exists "."%char. split; reflexivity.
Qed.

Lemma versionWord_lang (v : RegExp.input) :
  versionWord v -> RegExp.lang versionPart v.
Proof.
  intros (v1 & v2 & v3 & -> & [N1 D1] & [N2 D2] & [N3 D3]).
  exists v1, ("."%char :: v2 ++ "."%char :: v3). repeat split; try assumption.
  exists ["."%char], (v2 ++ "."%char :: v3).
  split; [reflexivity|]. split; [exists "."%char; split; reflexivity|].
  exists v2, ("."%char :: v3). repeat split; try assumption.
  exists ["."%char], v3. repeat split; try assumption.
  exists "."%char. split; reflexivity.
Qed.

Lemma KeyPattern_lang (key : string) :
  KeyPattern key -> RegExp.lang ExtensionKeyRegex (list_ascii_of_string key).
Proof.
  intros (i & v & p & -> & Hi & Hv & Hp).
  apply qualifiedId_idWord, idWord_lang in Hi.
  apply threeIntegerRuns_versionWord, versionWord_lang in Hv.
  rewrite list_ascii_of_string_app. cbn. rewrite list_ascii_of_string_app.
  exists (list_ascii_of_string i),
    ("-"%char :: list_ascii_of_string v
       ++ list_ascii_of_string
            match p with Some q => String "-" q | None => "" end).
  split; [reflexivity|]. split; [exact Hi|].
  exists ["-"%char],
    (list_ascii_of_string v
       ++ list_ascii_of_string
            match p with Some q => String "-" q | None => "" end).
  split; [reflexivity|]. split; [exists "-"%char; split; reflexivity|].
  exists (list_ascii_of_string v),
    (list_ascii_of_string
       match p with Some q => String "-" q | None => "" end).
  split; [reflexivity|]. split; [exact Hv|].
  destruct p as [q|]; [right | now left]. destruct Hp as [Nq Aq].
  exists ["-"%char], (list_ascii_of_string q).
  split; [reflexivity|]. split; [exists "-"%char; split; reflexivity|].
  split; [now rewrite list_ascii_of_string_nil | assumption].
Qed.

Lemma parse_of_exec (s : string) (caps : RegExp.captures) :
  RegExp.exec ExtensionKeyRegex s = Some caps ->
  exists k, ExtensionKey.parse s = Some k.
Proof.
  intros E. unfold ExtensionKey.parse. rewrite E.
  apply exec_ExtensionKeyRegex_inv in E
    as (w & v & tp & _ & Hw & Hv & _ & ->).
  assert (Nw : truthy (string_of_list_ascii w) = true).
  { apply truthy_true_iff. rewrite string_of_list_ascii_nil.
    destruct Hw as (pub & nm & -> & Np & _). destruct pub; easy. }
  assert (Nv : truthy (string_of_list_ascii v) = true).
  { apply truthy_true_iff. rewrite string_of_list_ascii_nil.
    now apply versionWord_chars in Hv. }
  destruct tp; cbn [platformCaptures app RegExp.group Nat.eqb];
    rewrite Nw, Nv; cbn [andb]; eexists; reflexivity.
Qed.

(** X3.  [parse] returns a key exactly for the strings of the anchored
    pattern: a qualified id, a dash, three integer runs and, optionally, a
    dash and a non-empty platform without line terminator. *)
Theorem parse_some_iff_KeyPattern (s : string) :
  (exists k, ExtensionKey.parse s = Some k) <-> KeyPattern s.
Proof.
  split.
  - intros (k & H). eapply parse_some_KeyPattern, H.
  - intros H. apply KeyPattern_lang, exec_iff in H.
    destruct (RegExp.exec ExtensionKeyRegex s) as [caps|] eqn:E; [|easy].
    eapply parse_of_exec, E.
Qed.

Lemma parse_some_iff_KeyPattern_witness :
  exists k, ExtensionKey.parse "pub.name-1.2.3-web" = Some k.
Proof.
  apply (parse_some_iff_KeyPattern "pub.name-1.2.3-web").
  exists "pub.name", "1.2.3", (Some "web").
  split; [reflexivity|]. split; [|split].
  - exists "pub", "name". repeat split; discriminate.
  - exists "1", "2", "3". repeat split; discriminate.
  - split; [discriminate | reflexivity].
Defined.

Lemma wellFormedKey_parse (k : ExtensionKey.t) :
  wellFormedKey k -> ExtensionKey.parse (ExtensionKey.toString k) = Some k.
Proof.
  intros (Hi & Hv & Hp). apply parse_toString; auto using isValid_cleanPlatform.
Qed.

(** X4.  [toString] is injective on well-formed keys: two keys with a
    qualified id, a version of three integer runs and a valid target platform
    that print the same are the same key. *)
Theorem toString_injective (k1 k2 : ExtensionKey.t) :
  wellFormedKey k1 -> wellFormedKey k2 ->
  ExtensionKey.toString k1 = ExtensionKey.toString k2 -> k1 = k2.
Proof.
  intros H1 H2 E.
  apply wellFormedKey_parse in H1, H2. rewrite E in H1. congruence.
Qed.

Lemma integerRun_any (s : string) :
  integerRun s -> forallb RegExp.anyChar (list_ascii_of_string s) = true.
Proof.
  intros [_ D]. rewrite forallb_forall in *. intros x Hx.
  specialize (D x Hx). unfold RegExp.digit in D. unfold RegExp.anyChar,
    RegExp.lineTerminator.
  apply andb_prop in D as [D1 D2]. apply Nat.leb_le in D1.
  destruct (Nat.eqb_spec (nat_of_ascii x) 10); [lia|].
  destruct (Nat.eqb_spec (nat_of_ascii x) 13); [lia|]. reflexivity.
Qed.

Lemma threeIntegerRuns_any (s : string) :
  threeIntegerRuns s -> forallb RegExp.anyChar (list_ascii_of_string s) = true.
Proof.
  intros (a & b & c & -> & Ha & Hb & Hc).
  rewrite list_ascii_of_string_app. cbn. rewrite list_ascii_of_string_app. cbn.
  rewrite forallb_app. cbn. rewrite forallb_app. cbn.
  now rewrite !integerRun_any.
Qed.

Lemma threeIntegerRuns_not_UNDEFINED (s : string) :
  threeIntegerRuns s -> s <> TargetPlatform.UNDEFINED.
Proof.
  intros (a & b & c & -> & [Na Da] & _) E.
  destruct a as [|x a]; [easy|]. cbn in *. injection E as -> _.
  discriminate.
Qed.

(** X5.  The id is matched greedily: when the target platform of a key
    reads as a version, the string that [toString] builds parses to another
    key, whose id has swallowed the version and whose version is the former
    platform. *)
Theorem parse_toString_version_like_platform (i v v' : string) :
  qualifiedId i -> threeIntegerRuns v -> threeIntegerRuns v' ->
  ExtensionKey.parse
    (ExtensionKey.toString
       {| ExtensionKey.id := i; ExtensionKey.version := v;
          ExtensionKey.targetPlatform := v' |})
  = Some {| ExtensionKey.id := (i ++ "-" ++ v)%string;
            ExtensionKey.version := v';
            ExtensionKey.targetPlatform := TargetPlatform.UNDEFINED |}.
Proof.
  intros Hi Hv Hv'.
  replace (ExtensionKey.toString
             {| ExtensionKey.id := i; ExtensionKey.version := v;
                ExtensionKey.targetPlatform := v' |})
    with (ExtensionKey.toString
            {| ExtensionKey.id := (i ++ "-" ++ v)%string;
               ExtensionKey.version := v';
               ExtensionKey.targetPlatform := TargetPlatform.UNDEFINED |}).
  - apply parse_toString; cbn; auto.
    destruct Hi as (pub & nm & -> & Np & Dp & Nn & Dn).
    exists pub, (nm ++ "-" ++ v)%string. repeat split; try assumption.
    + now rewrite !string_app_assoc.
    + destruct nm; easy.
    + rewrite list_ascii_of_string_app, forallb_app, Dn. cbn.
      now apply threeIntegerRuns_any.
  - unfold ExtensionKey.toString.
    cbn [ExtensionKey.id ExtensionKey.version ExtensionKey.targetPlatform].
    apply threeIntegerRuns_not_UNDEFINED, String.eqb_neq in Hv'.
    rewrite Hv', String.eqb_refl. cbn [negb].
    rewrite string_app_nil_r, !string_app_assoc. reflexivity.
Qed.

Lemma parse_toString_version_like_platform_witness :
  ExtensionKey.parse "pub.name-1.2.3-4.5.6"
  = Some {| ExtensionKey.id := "pub.name-1.2.3";
            ExtensionKey.version := "4.5.6";
            ExtensionKey.targetPlatform := TargetPlatform.UNDEFINED |}.
Proof.
  apply (parse_toString_version_like_platform "pub.name" "1.2.3" "4.5.6").
  - exists "pub", "name". repeat split; discriminate.
  - exists "1", "2", "3". repeat split; discriminate.
  - exists "4", "5", "6". repeat split; discriminate.
Defined.

Lemma toString_injective_witness :
  {| ExtensionKey.id := "pub.name"; ExtensionKey.version := "1.2.3";
     ExtensionKey.targetPlatform := TargetPlatform.WEB |}
  = {| ExtensionKey.id := "pub.name"; ExtensionKey.version := "1.2.3";
       ExtensionKey.targetPlatform := "web" |}.
Proof.
  apply toString_injective.
  - split; [exists "pub", "name"; repeat split; discriminate|].
    split; [exists "1", "2", "3"; repeat split; discriminate | reflexivity].
  - split; [exists "pub", "name"; repeat split; discriminate|].
    split; [exists "1", "2", "3"; repeat split; discriminate | reflexivity].
  - reflexivity.
Defined.

(** ** More on [getExtensionDependencies] *)

(** Every returned dependency is the only installed match of a non-empty id
    that the root or a returned dependency declares. *)
Lemma dependencies_origin
    (compareIgnoreCase : string -> string -> Z)
    (installedExtensions : list IExtension) (root e : IExtension) :
  In e (getExtensionDependencies compareIgnoreCase installedExtensions root) ->
  exists i,
    declaredBy root
      (getExtensionDependencies compareIgnoreCase installedExtensions root) i /\
    i <> "" /\
    filter (matchesId compareIgnoreCase i) installedExtensions = [e].
Proof.
  intros Hin.
  pose proof (getExtensionDependencies_run compareIgnoreCase
                installedExtensions root) as H.
  pose proof (whileLoop_invariant compareIgnoreCase installedExtensions _
                (iteration_origin compareIgnoreCase installedExtensions root)
                _ _ _ _
                (conj (fun j Hj => ex_intro _ root (conj (or_introl eq_refl) Hj))
                      (fun e (He : In e []) => match He with end))
                H) as [_ Hd].
  exact (Hd e Hin).
Qed.

(** Every id on the queue has been declared, and every accepted dependency
    is the only installed match of a non-empty id that the root or a
    dependency accepted before it declares. *)
Lemma iteration_origin_earlier
    (compareIgnoreCase : string -> string -> Z)
    (installedExtensions : list IExtension)
    (root : IExtension) (i : string) (rest : list string)
    (dependencies : list IExtension) :
  let Inv extensions dependencies :=
    (forall j, In j extensions -> declaredBy root dependencies j) /\
    (forall earlier e later,
       dependencies = earlier ++ e :: later ->
       exists j, declaredBy root earlier j /\ j <> "" /\
                 filter (matchesId compareIgnoreCase j) installedExtensions
                 = [e]) in
  Inv (i :: rest) dependencies ->
  Inv (fst (iteration compareIgnoreCase installedExtensions
              i rest dependencies))
      (snd (iteration compareIgnoreCase installedExtensions
              i rest dependencies)).
Proof.
  cbv zeta. intros [Hq Hd].
  destruct (iteration_cases compareIgnoreCase installedExtensions
              i rest dependencies) as [ext0 Hi Hall Hf|_];
    simpl; [|split; auto using in_cons].
  split.
  - intros j Hj. apply in_app_or in Hj as [Hj|Hj].
    + destruct (Hq j (in_cons _ _ _ Hj)) as (declarer & Hdecl & Hdj).
      exists declarer. split; [|assumption].
      destruct Hdecl as [->|Hin]; [now left | right; apply in_or_app; now left].
    + exists ext0. split; [right; apply in_or_app; right; now left | assumption].
  - intros earlier e later Heq.
    induction later as [|x later' _] using rev_ind.
    + apply app_inj_tail in Heq as [<- <-].
      exists i. auto using in_eq.
    + rewrite app_comm_cons, app_assoc in Heq.
      apply app_inj_tail in Heq as [Heq _]. eauto.
Qed.

(** X6.  Every returned dependency is an installed extension, and it is the
    only installed match of a non-empty id that is declared by the root or by
    a dependency returned before it: nothing is returned that is not reached
    from the root. *)
Theorem returned_dependency_is_reached
    (compareIgnoreCase : string -> string -> Z)
    (installedExtensions : list IExtension) (root e : IExtension) :
  let dependencies :=
    getExtensionDependencies compareIgnoreCase installedExtensions root in
  In e dependencies ->
  In e installedExtensions /\
  exists earlier later i,
    dependencies = earlier ++ e :: later /\
    declaredBy root earlier i /\ i <> "" /\
    filter (matchesId compareIgnoreCase i) installedExtensions = [e].
Proof.
  cbv zeta. intros Hin.
  pose proof (getExtensionDependencies_run compareIgnoreCase
                installedExtensions root) as H.
  pose proof (whileLoop_invariant compareIgnoreCase installedExtensions _
                (iteration_origin_earlier compareIgnoreCase
                   installedExtensions root)
                _ _ _ _
                (conj (fun j Hj => ex_intro _ root (conj (or_introl eq_refl) Hj))
                      (fun earlier e later (He : [] = earlier ++ e :: later) =>
                         match app_cons_not_nil _ _ _ He with end))
                H) as [_ Hd].
  destruct (in_split _ _ Hin) as (earlier & later & Heq).
  destruct (Hd earlier e later Heq) as (i & Hdecl & Hne & Hf).
  split; [|exists earlier, later, i; auto].
  assert (Hm : In e (filter (matchesId compareIgnoreCase i) installedExtensions))
    by (rewrite Hf; now left).
  now apply filter_In in Hm.
Qed.

(** [a.one], returned second from [a.one] itself, is declared by [a.two],
    which is returned first. *)
Lemma returned_dependency_is_reached_witness :
  In a_one [a_one; a_two] /\
  exists earlier later i,
    getExtensionDependencies strings.compareIgnoreCase [a_one; a_two] a_one
    = earlier ++ a_one :: later /\
    declaredBy a_one earlier i /\ i <> "" /\
    filter (matchesId strings.compareIgnoreCase i) [a_one; a_two] = [a_one].
Proof.
  apply (returned_dependency_is_reached strings.compareIgnoreCase
           [a_one; a_two] a_one a_one).
  right. left. reflexivity.
Defined.

(** X7.  The returned dependencies are closed: when a non-empty id declared
    by the root or by a returned dependency has exactly one installed match,
    that match is returned. *)
Theorem reached_dependency_is_returned
    (compareIgnoreCase : string -> string -> Z)
    (installedExtensions : list IExtension) (root e : IExtension)
    (i : string) :
  let dependencies :=
    getExtensionDependencies compareIgnoreCase installedExtensions root in
  declaredBy root dependencies i -> i <> "" ->
  filter (matchesId compareIgnoreCase i) installedExtensions = [e] ->
  In e dependencies.
Proof.
  cbv zeta. intros Hdecl Hne Hf.
  pose proof (getExtensionDependencies_run compareIgnoreCase
                installedExtensions root) as H.
  pose proof (whileLoop_invariant compareIgnoreCase installedExtensions _
                (iteration_settles compareIgnoreCase installedExtensions root)
                (enqueueBound installedExtensions root)
                (dependencyIds root) []
                (getExtensionDependencies compareIgnoreCase
                   installedExtensions root)) as Hs.
  cbv beta in Hs.
  destruct (Hs ltac:(intros j (declarer & [->|[]] & Hj); now left) H i Hdecl)
    as [[]|[Hi|[Hex|Hlen]]].
  - contradiction.
  - apply existsb_exists in Hex as (d & Hd & Hm).
    pose proof (whileLoop_invariant compareIgnoreCase installedExtensions
                  (fun _ d => NoDup d /\ incl d installedExtensions)
                  (fun i rest d =>
                     iteration_NoDup_incl compareIgnoreCase
                       installedExtensions i rest d)
                  _ _ _ _ (conj (NoDup_nil _) (incl_nil_l _)) H)
      as [_ Hincl].
    assert (Hin : In d (filter (matchesId compareIgnoreCase i)
                          installedExtensions))
      by (apply filter_In; auto).
    rewrite Hf in Hin. destruct Hin as [<-|[]]. exact Hd.
  - rewrite Hf in Hlen. now elim Hlen.
Qed.

Lemma reached_dependency_is_returned_witness :
  In a_two
    (getExtensionDependencies strings.compareIgnoreCase [a_one; a_two] a_one).
Proof.
  apply (reached_dependency_is_returned strings.compareIgnoreCase
           [a_one; a_two] a_one a_two "a.two").
  - exists a_one. split; [now left | now left].
  - discriminate.
  - reflexivity.
Defined.

Section InstalledOrder.

Variable compareIgnoreCase : string -> string -> Z.
Variables installed installed' : list IExtension.
Hypothesis installed_Permutation : Permutation installed installed'.

Lemma filter_Permutation {A : Type} (f : A -> bool) (l l' : list A) :
  Permutation l l' -> Permutation (filter f l) (filter f l').
Proof.
  intros P. induction P; simpl.
  - constructor.
  - destruct (f x); [now constructor | assumption].
  - destruct (f x), (f y); try apply Permutation_refl.
    apply perm_swap.
  - eapply perm_trans; eassumption.
Qed.

Lemma iteration_Permutation (i : string) (extensions : list string)
    (dependencies : list IExtension) :
  iteration compareIgnoreCase installed i extensions dependencies
  = iteration compareIgnoreCase installed' i extensions dependencies.
Proof.
  unfold iteration.
  destruct (truthy i && _); [|reflexivity].
  pose proof (filter_Permutation (matchesId compareIgnoreCase i) _ _
                installed_Permutation) as P.
  destruct (filter (matchesId compareIgnoreCase i) installed)
    as [|e0 [|e1 l]] eqn:E.
  - apply Permutation_nil in P. now rewrite P.
  - apply Permutation_length_1_inv in P. now rewrite P.
  - pose proof (Permutation_length P) as L.
    destruct (filter (matchesId compareIgnoreCase i) installed')
      as [|e0' [|e1' l']]; simpl in L; try discriminate. reflexivity.
Qed.

Lemma whileLoop_Permutation (fuel : nat) :
  forall extensions dependencies,
    whileLoop compareIgnoreCase installed fuel extensions dependencies
    = whileLoop compareIgnoreCase installed' fuel extensions dependencies.
Proof.
  induction fuel as [|fuel IH]; intros [|i rest] dependencies; simpl;
    try reflexivity.
  rewrite iteration_Permutation.
  destruct (iteration compareIgnoreCase installed' i rest dependencies).
  apply IH.
Qed.

Lemma enqueueBound_Permutation (extension : IExtension) :
  enqueueBound installed extension = enqueueBound installed' extension.
Proof.
  unfold enqueueBound. f_equal.
  apply Permutation_list_sum, Permutation_map, installed_Permutation.
Qed.

End InstalledOrder.

(** X8.  The order of the installed extensions does not matter: a
    permutation of them gives the same dependencies, in the same order. *)
Theorem getExtensionDependencies_installed_order
    (compareIgnoreCase : string -> string -> Z)
    (installed installed' : list IExtension) (extension : IExtension) :
  Permutation installed installed' ->
  getExtensionDependencies compareIgnoreCase installed extension
  = getExtensionDependencies compareIgnoreCase installed' extension.
Proof.
  intros P. unfold getExtensionDependencies, getExtensionDependenciesWithin.
  rewrite (enqueueBound_Permutation installed installed' P).
  now rewrite (whileLoop_Permutation compareIgnoreCase installed installed' P).
Qed.

Lemma getExtensionDependencies_installed_order_witness :
  getExtensionDependencies strings.compareIgnoreCase [a_one; a_two] a_one
  = getExtensionDependencies strings.compareIgnoreCase [a_two; a_one] a_one.
Proof.
  apply getExtensionDependencies_installed_order. apply perm_swap.
Defined.

(** X9.  An installed extension is returned only when no other installed
    extension has its id, whatever the uuids are: an id that two installed
    extensions share resolves to neither of them. *)
Theorem returned_dependency_id_unambiguous
    (compareIgnoreCase : string -> string -> Z)
    (installedExtensions : list IExtension) (root e e' : IExtension) :
  In e (getExtensionDependencies compareIgnoreCase installedExtensions root) ->
  In e' installedExtensions ->
  id (identifier e') = id (identifier e) ->
  e' = e.
Proof.
  intros Hin Hin' Hid.
  destruct (dependencies_origin _ _ _ _ Hin) as (i & _ & _ & Hf).
  assert (Hm : In e (filter (matchesId compareIgnoreCase i) installedExtensions))
    by (rewrite Hf; now left).
  apply filter_In in Hm as [_ Hm].
  assert (Hm' : In e' (filter (matchesId compareIgnoreCase i)
                         installedExtensions)).
  { apply filter_In. split; [assumption|].
    unfold matchesId in *.
    rewrite areSameExtensions_idOnly_r in *. now rewrite Hid. }
  rewrite Hf in Hm'. destruct Hm' as [<-|[]]. reflexivity.
Qed.

Lemma returned_dependency_id_unambiguous_witness : a_two = a_two.
Proof.
  apply (returned_dependency_id_unambiguous strings.compareIgnoreCase
           [a_one; a_two] a_one a_two a_two).
  - left. reflexivity.
  - right. left. reflexivity.
  - reflexivity.
Defined.

(** ** More on [groupByExtension] *)

Lemma Subsequence_nil_l {A : Type} (l : list A) : Subsequence [] l.
Proof.
  induction l as [|x l IH]; [apply Subsequence_nil|].
  apply Subsequence_skip, IH.
Qed.

Lemma Subsequence_refl {A : Type} (l : list A) : Subsequence l l.
Proof.
  induction l as [|x l IH]; [apply Subsequence_nil|].
  apply Subsequence_keep, IH.
Qed.

Lemma Subsequence_app {A : Type} (s1 l1 s2 l2 : list A) :
  Subsequence s1 l1 -> Subsequence s2 l2 -> Subsequence (s1 ++ s2) (l1 ++ l2).
Proof.
  intros H1 H2. induction H1 as [|x s l H IH|x s l H IH]; simpl.
  - exact H2.
  - apply Subsequence_skip, IH.
  - apply Subsequence_keep, IH.
Qed.

Section GroupShape.

Variable compareIgnoreCase : string -> string -> Z.
Context {T : Type}.
Variable getExtensionIdentifier : T -> IExtensionIdentifier.

Let same := sameItem compareIgnoreCase getExtensionIdentifier.
Let add := addExtension compareIgnoreCase getExtensionIdentifier.
Let find := findGroup compareIgnoreCase getExtensionIdentifier.

Lemma findGroup_Some_nth (G : list (list T)) (x : T) (i : nat) :
  find G x = Some i ->
  exists g, nth_error G i = Some g /\
            existsb (fun e => same e x) g = true.
Proof.
  revert i. induction G as [|g G IH]; simpl; intros i H; [discriminate|].
  unfold hasMember in H.
  change (fun e => areSameExtensions compareIgnoreCase
                     (getExtensionIdentifier e) (getExtensionIdentifier x))
    with (fun e => same e x) in H.
  destruct (existsb (fun e => same e x) g) eqn:E.
  - injection H as <-. exists g. auto.
  - destruct (find G x) as [j|] eqn:F; [|discriminate].
    injection H as <-. apply IH. reflexivity.
Qed.

Lemma nth_error_pushInto (i j : nat) (x : T) (G : list (list T)) :
  nth_error (pushInto i x G) j
  = if (j =? i)%nat
    then option_map (fun g => g ++ [x]) (nth_error G j)
    else nth_error G j.
Proof.
  revert i j. induction G as [|g G IH]; intros i j; simpl.
  - destruct i, j; reflexivity || (simpl; now destruct (j =? i)%nat).
  - destruct i as [|i], j as [|j]; simpl; try reflexivity. apply IH.
Qed.

Lemma Forall_pushInto (P : list T -> Prop) (i : nat) (x : T)
    (G : list (list T)) :
  Forall P G ->
  (forall g, nth_error G i = Some g -> P (g ++ [x])) ->
  Forall P (pushInto i x G).
Proof.
  revert i. induction G as [|g G IH]; intros i HF Hi;
    [destruct i; constructor|].
  inversion HF; subst. destruct i as [|i]; simpl.
  - constructor; [apply Hi; reflexivity | assumption].
  - constructor; [assumption | apply IH; auto].
Qed.

(** An invariant of [addExtension] that holds of the empty list of groups
    holds of the groups of every input. *)
Lemma groupByExtension_invariant (P : list T -> list (list T) -> Prop) :
  P [] [] ->
  (forall done G x, P done G -> P (done ++ [x]) (add G x)) ->
  forall l, P l (groupByExtension compareIgnoreCase getExtensionIdentifier l).
Proof.
  intros H0 Hstep l. unfold groupByExtension. fold add.
  assert (forall rest done G,
            P done G -> P (done ++ rest) (fold_left add rest G)) as H.
  { induction rest as [|x rest IH]; intros done G HP; simpl.
    - now rewrite app_nil_r.
    - replace (done ++ x :: rest) with ((done ++ [x]) ++ rest)
        by (now rewrite <- app_assoc).
      apply IH, Hstep, HP. }
  apply (H l [] [] H0).
Qed.

Lemma addExtension_cases (G : list (list T)) (x : T) :
  (exists i g, nth_error G i = Some g /\
               existsb (fun e => same e x) g = true /\
               add G x = pushInto i x G) \/
  (existsb (fun e => same e x) (concat G) = false /\
   add G x = G ++ [[x]]).
Proof.
  unfold add, addExtension. fold find.
  destruct (find G x) as [i|] eqn:E.
  - left. destruct (findGroup_Some_nth G x i E) as (g & Hg & Hs). eauto.
  - right. split; [|reflexivity].
    now apply (findGroup_None compareIgnoreCase getExtensionIdentifier).
Qed.

Lemma addExtension_linked (G : list (list T)) (x : T) :
  Forall (linked compareIgnoreCase getExtensionIdentifier) G ->
  Forall (linked compareIgnoreCase getExtensionIdentifier) (add G x).
Proof.
  intros HF.
  destruct (addExtension_cases G x) as [(i & g & Hg & Hs & ->)|[_ ->]].
  - apply Forall_pushInto; [assumption|].
    intros g' Hg'. rewrite Hg in Hg'. injection Hg' as <-.
    rewrite Forall_forall in HF.
    destruct (HF g (nth_error_In _ _ Hg)) as [Hne Hl].
    split; [destruct g; easy|].
    intros before y after E.
    destruct after as [|z after].
    + apply app_inj_tail in E as [<- <-]. right. exact Hs.
    + destruct (exists_last (l := z :: after) ltac:(discriminate))
        as (after' & w & Ea).
      rewrite Ea in E.
      replace (before ++ y :: after' ++ [w])
        with ((before ++ y :: after') ++ [w]) in E
        by (now rewrite <- app_assoc).
      apply app_inj_tail in E as [Eg _].
      exact (Hl _ _ _ Eg).
  - apply Forall_app. split; [assumption|].
    constructor; [|constructor]. split; [discriminate|].
    intros [|u before] y after E; [now left|].
    injection E as _ E. destruct before; discriminate.
Qed.

Lemma addExtension_Subsequence (done : list T) (G : list (list T)) (x : T) :
  Forall (fun g => Subsequence g done) G ->
  Forall (fun g => Subsequence g (done ++ [x])) (add G x).
Proof.
  intros HF.
  assert (HF' : Forall (fun g => Subsequence g (done ++ [x])) G).
  { eapply Forall_impl; [|exact HF]. intros g Hg.
    rewrite <- (app_nil_r g). apply Subsequence_app; [assumption|].
    apply Subsequence_nil_l. }
  destruct (addExtension_cases G x) as [(i & g & Hg & Hs & ->)|[_ ->]].
  - apply Forall_pushInto; [assumption|].
    intros g' Hg'. rewrite Forall_forall in HF.
    apply Subsequence_app; [|apply Subsequence_refl].
    apply HF. eapply nth_error_In, Hg'.
  - apply Forall_app. split; [assumption|].
    constructor; [|constructor].
    apply (Subsequence_app [] done [x] [x]);
      [apply Subsequence_nil_l | apply Subsequence_refl].
Qed.

Lemma firstItems_pushInto (i : nat) (x : T) (G : list (list T)) :
  Forall (fun g => g <> []) G ->
  firstItems (pushInto i x G) = firstItems G.
Proof.
  unfold firstItems. revert i.
  induction G as [|g G IH]; intros i HF; [now destruct i|].
  inversion HF; subst. destruct i as [|i]; simpl.
  - destruct g; [easy | reflexivity].
  - now rewrite IH.
Qed.

Lemma addExtension_firstItems (done : list T) (G : list (list T)) (x : T) :
  let P done G :=
    Forall (fun g => g <> []) G /\ Permutation (concat G) done /\
    firstItems G
    = leaders compareIgnoreCase getExtensionIdentifier [] done in
  P done G -> P (done ++ [x]) (add G x).
Proof.
  cbv zeta. intros (Hne & Hperm & Hfirst).
  assert (Hleaders : forall seen l,
            leaders compareIgnoreCase getExtensionIdentifier seen (l ++ [x])
            = leaders compareIgnoreCase getExtensionIdentifier seen l
              ++ if existsb (fun e => same e x) (seen ++ l) then [] else [x]).
  { intros seen l. revert seen.
    induction l as [|y l IH]; intros seen; simpl.
    - rewrite app_nil_r. now destruct (existsb _ seen).
    - rewrite IH, <- app_assoc. simpl.
      now destruct (existsb _ seen). }
  rewrite Hleaders. simpl.
  rewrite <- (existsb_Permutation _ _ _ Hperm).
  destruct (addExtension_cases G x) as [(i & g & Hg & Hs & ->)|[Hnone ->]].
  - split; [|split].
    + apply Forall_pushInto; [assumption|]. intros g' _. destruct g'; easy.
    + rewrite pushInto_concat by (apply nth_error_Some; congruence).
      rewrite Hperm. apply Permutation_cons_append.
    + rewrite firstItems_pushInto by assumption.
      assert (existsb (fun e => same e x) (concat G) = true) as ->.
      { apply existsb_exists in Hs as (e & He & Hex).
        apply existsb_exists. exists e. split; [|assumption].
        apply in_concat. exists g. split; [eapply nth_error_In, Hg | exact He]. }
      now rewrite app_nil_r.
  - split; [|split].
    + apply Forall_app. split; [assumption|]. repeat constructor. discriminate.
    + rewrite concat_app. cbn [concat]. rewrite app_nil_r.
      now apply Permutation_app_tail.
    + unfold firstItems in *. rewrite map_app, concat_app, Hfirst.
      fold same. rewrite Hnone. reflexivity.
Qed.

End GroupShape.

(** X10.  Every group is non-empty, and each of its items but the first is
    the same extension as an item before it in the group. *)
Theorem groupByExtension_groups_linked
    (compareIgnoreCase : string -> string -> Z)
    {T : Type} (getExtensionIdentifier : T -> IExtensionIdentifier)
    (extensions : list T) :
  Forall (linked compareIgnoreCase getExtensionIdentifier)
    (groupByExtension compareIgnoreCase getExtensionIdentifier extensions).
Proof.
  apply (groupByExtension_invariant compareIgnoreCase getExtensionIdentifier
           (fun _ G => Forall (linked compareIgnoreCase getExtensionIdentifier) G)).
  - constructor.
  - intros done G x. apply addExtension_linked.
Qed.

(** X11.  Every group lists its items in the order of the input: it is the
    input with some items left out. *)
Theorem groupByExtension_groups_in_input_order
    (compareIgnoreCase : string -> string -> Z)
    {T : Type} (getExtensionIdentifier : T -> IExtensionIdentifier)
    (extensions : list T) :
  Forall (fun group => Subsequence group extensions)
    (groupByExtension compareIgnoreCase getExtensionIdentifier extensions).
Proof.
  apply (groupByExtension_invariant compareIgnoreCase getExtensionIdentifier
           (fun done G => Forall (fun g => Subsequence g done) G)).
  - constructor.
  - intros done G x. apply addExtension_Subsequence.
Qed.

(** X12.  The groups are in first-seen order: their first items, in the
    order of the groups, are the items of the input that are not the same
    extension as any item before them, in the order of the input. *)
Theorem groupByExtension_first_seen_order
    (compareIgnoreCase : string -> string -> Z)
    {T : Type} (getExtensionIdentifier : T -> IExtensionIdentifier)
    (extensions : list T) :
  firstItems
    (groupByExtension compareIgnoreCase getExtensionIdentifier extensions)
  = leaders compareIgnoreCase getExtensionIdentifier [] extensions.
Proof.
  apply (groupByExtension_invariant compareIgnoreCase getExtensionIdentifier
           (fun done G =>
              Forall (fun g => g <> []) G /\ Permutation (concat G) done /\
              firstItems G
              = leaders compareIgnoreCase getExtensionIdentifier [] done)).
  - repeat split; constructor.
  - intros done G x. apply addExtension_firstItems.
Qed.

Section GroupClasses.

Variable compareIgnoreCase : string -> string -> Z.
Context {T : Type}.
Variable getExtensionIdentifier : T -> IExtensionIdentifier.

Let same := sameItem compareIgnoreCase getExtensionIdentifier.
Let add := addExtension compareIgnoreCase getExtensionIdentifier.
Let transitive := transitiveOn compareIgnoreCase getExtensionIdentifier.
Let symmetric := symmetricOn compareIgnoreCase getExtensionIdentifier.

(** Where [addExtension] puts the new item: in the group of index [i0],
    which is the first group with a member that is the same extension, or a
    new group at the end when there is none. *)
Lemma addExtension_index (G : list (list T)) (x : T) :
  exists i0,
    (forall i g1 u,
       nth_error (add G x) i = Some g1 -> In u g1 ->
       (exists g, nth_error G i = Some g /\ In u g) \/ (u = x /\ i = i0)) /\
    ((exists g0 e, nth_error G i0 = Some g0 /\ In e g0 /\ same e x = true) \/
     ((forall u, In u (concat G) -> same u x = false) /\
      i0 = List.length G)).
Proof.
  destruct (addExtension_cases compareIgnoreCase getExtensionIdentifier G x)
    as [(i0 & g0 & Hg & Hs & E)|[Hnone E]]; fold add in E; rewrite E.
  - exists i0. split.
    + intros i g1 u Hn Hu. rewrite nth_error_pushInto in Hn.
      destruct (Nat.eqb_spec i i0) as [->|Hne]; [|eauto].
      rewrite Hg in Hn. injection Hn as <-.
      apply in_app_or in Hu as [Hu|[<-|[]]]; eauto.
    + left. apply existsb_exists in Hs as (e & He & Hex). eauto.
  - exists (List.length G). split.
    + intros i g1 u Hn Hu.
      destruct (Nat.lt_ge_cases i (List.length G)) as [Hlt|Hge].
      * rewrite nth_error_app1 in Hn by assumption. eauto.
      * rewrite nth_error_app2 in Hn by assumption.
        destruct (i - List.length G) as [|n] eqn:En; simpl in Hn.
        -- injection Hn as <-. destruct Hu as [<-|[]]. right. split; [easy|lia].
        -- destruct n; discriminate.
    + right. split; [|reflexivity]. intros u Hu.
      destruct (same u x) eqn:F; [|reflexivity].
      assert (existsb (fun e => same e x) (concat G) = true)
        by (apply existsb_exists; eauto).
      unfold same in *. congruence.
Qed.

Lemma addExtension_classes (done : list T) (G : list (list T)) (x : T) :
  let P done G :=
    transitive done -> symmetric done ->
    Forall (fun g => incl g done) G /\
    forall i j g1 g2 u w,
      nth_error G i = Some g1 -> nth_error G j = Some g2 ->
      In u g1 -> In w g2 -> (same u w = true <-> i = j) in
  P done G -> P (done ++ [x]) (add G x).
Proof.
  cbv zeta. intros HP Htr Hsym.
  assert (Htr0 : transitive done).
  { intros a b c Ha Hb Hc. apply Htr; apply in_or_app; now left. }
  assert (Hsym0 : symmetric done).
  { intros a b Ha Hb. apply Hsym; apply in_or_app; now left. }
  destruct (HP Htr0 Hsym0) as [Hincl Hcl]. clear HP.
  assert (Hmem : forall i g u, nth_error G i = Some g -> In u g ->
                               In u (done ++ [x])).
  { intros i g u Hg Hu. apply in_or_app. left.
    rewrite Forall_forall in Hincl.
    exact (Hincl g (nth_error_In _ _ Hg) u Hu). }
  assert (Hx : In x (done ++ [x])) by (apply in_or_app; right; now left).
  destruct (addExtension_index G x) as (i0 & Hold & Hcase).
  assert (Hux : forall i g u, nth_error G i = Some g -> In u g ->
                              (same u x = true <-> i = i0)).
  { intros i g u Hg Hu.
    destruct Hcase as [(g0 & e & Hg0 & He & Hex)|[Hnone ->]].
    - split.
      + intros Hs. apply (Hcl i i0 g g0 u e Hg Hg0 Hu He).
        assert (Hxe : same x e = true).
        { unfold same. rewrite (Hsym x e); eauto. }
        apply (Htr u x e); eauto.
      + intros ->. rewrite Hg0 in Hg. injection Hg as <-.
        apply (Htr u e x); eauto.
        now apply (Hcl i0 i0 g0 g0 u e Hg0 Hg0 Hu He).
    - split.
      + intros Hs. rewrite Hnone in Hs; [discriminate|].
        apply in_concat. exists g. split; [eapply nth_error_In, Hg | exact Hu].
      + intros ->. assert (nth_error G (List.length G) <> None) as Hn
          by congruence.
        apply nth_error_Some in Hn. lia. }
  split.
  - unfold add, addExtension.
    destruct (findGroup compareIgnoreCase getExtensionIdentifier G x) as [i|].
    + apply Forall_pushInto.
      * eapply Forall_impl; [|exact Hincl]. intros g Hg. now apply incl_appl.
      * intros g Hg. apply incl_app; [|now apply incl_appr, incl_refl].
        rewrite Forall_forall in Hincl.
        apply incl_appl, Hincl. eapply nth_error_In, Hg.
    + apply Forall_app. split.
      * eapply Forall_impl; [|exact Hincl]. intros g Hg. now apply incl_appl.
      * constructor; [now apply incl_appr, incl_refl | constructor].
  - intros i j g1 g2 u w Hi Hj Hu Hw.
    destruct (Hold i g1 u Hi Hu) as [(g & Hg & Hug)|[-> ->]];
      destruct (Hold j g2 w Hj Hw) as [(g' & Hg' & Hwg)|[-> ->]].
    + exact (Hcl i j g g' u w Hg Hg' Hug Hwg).
    + exact (Hux i g u Hg Hug).
    + unfold same. rewrite (Hsym x w) by eauto.
      fold same. rewrite (Hux j g' w Hg' Hwg). split; congruence.
    + split; [reflexivity | intros _; apply sameItem_refl].
Qed.

End GroupClasses.

(** On an input on which [sameItem] is an equivalence, the groups hold
    items of the input, and two items are the same extension exactly when
    they are in the same group. *)
Lemma groupByExtension_classes
    (compareIgnoreCase : string -> string -> Z)
    {T : Type} (getExtensionIdentifier : T -> IExtensionIdentifier)
    (extensions : list T) :
  transitiveOn compareIgnoreCase getExtensionIdentifier extensions ->
  symmetricOn compareIgnoreCase getExtensionIdentifier extensions ->
  Forall (fun g => incl g extensions)
    (groupByExtension compareIgnoreCase getExtensionIdentifier extensions) /\
  forall i j g1 g2 u w,
    nth_error
      (groupByExtension compareIgnoreCase getExtensionIdentifier extensions)
      i = Some g1 ->
    nth_error
      (groupByExtension compareIgnoreCase getExtensionIdentifier extensions)
      j = Some g2 ->
    In u g1 -> In w g2 ->
    (sameItem compareIgnoreCase getExtensionIdentifier u w = true <-> i = j).
Proof.
  apply (groupByExtension_invariant compareIgnoreCase getExtensionIdentifier
           (fun done G =>
              transitiveOn compareIgnoreCase getExtensionIdentifier done ->
              symmetricOn compareIgnoreCase getExtensionIdentifier done ->
              Forall (fun g => incl g done) G /\
              forall i j g1 g2 u w,
                nth_error G i = Some g1 -> nth_error G j = Some g2 ->
                In u g1 -> In w g2 ->
                (sameItem compareIgnoreCase getExtensionIdentifier u w = true
                 <-> i = j))).
  - intros _ _. split; [constructor|].
    intros [|i] j g1 g2 u w H; discriminate.
  - intros done G x.
    exact (addExtension_classes compareIgnoreCase
             getExtensionIdentifier done G x).
Qed.

(** X13.  When [areSameExtensions] is transitive on the identifiers of the
    input (and the case-insensitive comparison is symmetric), the groups are
    the identity classes of the input: two items are the same extension
    exactly when they are in the same group. *)
Theorem groupByExtension_groups_are_classes
    (compareIgnoreCase : string -> string -> Z)
    (Hcmp : forall x y, compareIgnoreCase x y = 0%Z ->
                        compareIgnoreCase y x = 0%Z)
    {T : Type} (getExtensionIdentifier : T -> IExtensionIdentifier)
    (extensions : list T) :
  transitiveOn compareIgnoreCase getExtensionIdentifier extensions ->
  forall i j g1 g2 x y,
    nth_error
      (groupByExtension compareIgnoreCase getExtensionIdentifier extensions) i
    = Some g1 ->
    nth_error
      (groupByExtension compareIgnoreCase getExtensionIdentifier extensions) j
    = Some g2 ->
    In x g1 -> In y g2 ->
    (sameItem compareIgnoreCase getExtensionIdentifier x y = true <-> i = j).
Proof.
  intros Htr.
  apply groupByExtension_classes; [exact Htr|].
  intros x y _ _. apply areSameExtensions_sym, Hcmp.
Qed.

Lemma groupByExtension_groups_are_classes_witness :
  sameItem strings.compareIgnoreCase (fun x => x)
    (idOnly "a.one") (idOnly "A.One") = true <-> 0 = 0.
Proof.
  apply (groupByExtension_groups_are_classes strings.compareIgnoreCase
           compareIgnoreCase_zero_sym (fun x => x)
           [idOnly "a.one"; idOnly "A.One"; idOnly "b.two"])
    with (g1 := [idOnly "a.one"; idOnly "A.One"])
         (g2 := [idOnly "a.one"; idOnly "A.One"]).
  - intros x y z Hx Hy Hz. simpl in Hx, Hy, Hz.
    destruct Hx as [<-|[<-|[<-|[]]]];
      destruct Hy as [<-|[<-|[<-|[]]]];
      destruct Hz as [<-|[<-|[<-|[]]]];
      vm_compute; intros; congruence.
  - reflexivity.
  - reflexivity.
  - left. reflexivity.
  - right. left. reflexivity.
Defined.

Lemma sameItem_uuid
    (compareIgnoreCase : string -> string -> Z)
    {T : Type} (getExtensionIdentifier : T -> IExtensionIdentifier) (x y : T) :
  truthyOpt (uuid (getExtensionIdentifier x)) = true ->
  truthyOpt (uuid (getExtensionIdentifier y)) = true ->
  (sameItem compareIgnoreCase getExtensionIdentifier x y = true <->
   uuid (getExtensionIdentifier x) = uuid (getExtensionIdentifier y)).
Proof.
  intros Hx Hy. unfold sameItem, areSameExtensions. rewrite Hx, Hy. cbn [andb].
  destruct (uuid (getExtensionIdentifier x)) as [u|],
           (uuid (getExtensionIdentifier y)) as [v|]; try discriminate.
  simpl. rewrite String.eqb_eq. split; congruence.
Qed.

(** X14.  When every item has a non-empty uuid, the groups are the classes
    of equal uuid, whatever the ids and the comparator are: two items have
    the same uuid exactly when they are in the same group. *)
Theorem groupByExtension_groups_by_uuid
    (compareIgnoreCase : string -> string -> Z)
    {T : Type} (getExtensionIdentifier : T -> IExtensionIdentifier)
    (extensions : list T) :
  (forall x, In x extensions ->
             truthyOpt (uuid (getExtensionIdentifier x)) = true) ->
  forall i j g1 g2 x y,
    nth_error
      (groupByExtension compareIgnoreCase getExtensionIdentifier extensions) i
    = Some g1 ->
    nth_error
      (groupByExtension compareIgnoreCase getExtensionIdentifier extensions) j
    = Some g2 ->
    In x g1 -> In y g2 ->
    (uuid (getExtensionIdentifier x) = uuid (getExtensionIdentifier y)
     <-> i = j).
Proof.
  intros Hall.
  destruct (groupByExtension_classes compareIgnoreCase getExtensionIdentifier
              extensions) as [Hincl Hcl].
  - intros a b c Ha Hb Hc.
    rewrite !sameItem_uuid by auto. congruence.
  - intros a b Ha Hb.
    destruct (sameItem compareIgnoreCase getExtensionIdentifier a b) eqn:E1,
             (sameItem compareIgnoreCase getExtensionIdentifier b a) eqn:E2;
      try reflexivity.
    + apply sameItem_uuid in E1; auto. symmetry in E1.
      apply (sameItem_uuid compareIgnoreCase) in E1; auto. congruence.
    + apply sameItem_uuid in E2; auto. symmetry in E2.
      apply (sameItem_uuid compareIgnoreCase) in E2; auto. congruence.
  - intros i j g1 g2 x y Hi Hj Hx Hy.
    rewrite Forall_forall in Hincl.
    rewrite <- (Hcl i j g1 g2 x y Hi Hj Hx Hy).
    symmetry. apply sameItem_uuid; apply Hall.
    + exact (Hincl g1 (nth_error_In _ _ Hi) x Hx).
    + exact (Hincl g2 (nth_error_In _ _ Hj) y Hy).
Qed.

Lemma groupByExtension_groups_by_uuid_witness :
  Some "1" = Some "1" <-> 0 = 0.
Proof.
  apply (groupByExtension_groups_by_uuid strings.compareIgnoreCase
           (fun x => x)
           [ {| id := "x"; uuid := Some "1" |};
             {| id := "y"; uuid := Some "1" |};
             {| id := "x"; uuid := Some "2" |} ])
    with (g1 := [ {| id := "x"; uuid := Some "1" |};
                  {| id := "y"; uuid := Some "1" |} ])
         (g2 := [ {| id := "x"; uuid := Some "1" |};
                  {| id := "y"; uuid := Some "1" |} ])
         (x := {| id := "x"; uuid := Some "1" |})
         (y := {| id := "y"; uuid := Some "1" |}).
  - intros x Hx. simpl in Hx. destruct Hx as [<-|[<-|[<-|[]]]]; reflexivity.
  - reflexivity.
  - reflexivity.
  - left. reflexivity.
  - right. left. reflexivity.
Defined.

(** ** The ids, the denylist and the telemetry *)

(** *** [getExtensionId] *)

Lemma app_dot_inj (p p' n n' : list ascii) :
  forallb (RegExp.except ".") p = true ->
  forallb (RegExp.except ".") p' = true ->
  p ++ "."%char :: n = p' ++ "."%char :: n' -> p = p' /\ n = n'.
Proof.
  revert p'. induction p as [|x p IH]; intros [|y p'] Hp Hp' E; simpl in *.
  - injection E as ->. auto.
  - injection E as <- _. discriminate.
  - injection E as -> _. discriminate.
  - injection E as -> E.
    apply andb_prop in Hp as [_ Hp]. apply andb_prop in Hp' as [_ Hp'].
    destruct (IH p' Hp Hp' E) as [-> ->]. auto.
Qed.

Lemma list_ascii_of_string_inj (a b : string) :
  list_ascii_of_string a = list_ascii_of_string b -> a = b.
Proof.
  intros E. rewrite <- (string_of_list_ascii_of_string a),
    <- (string_of_list_ascii_of_string b). now rewrite E.
Qed.

(** X15.  An id names one publisher and one name: [getExtensionId] is
    injective on publishers without dot. *)
Theorem getExtensionId_injective (publisher name publisher' name' : string) :
  forallb (RegExp.except ".") (list_ascii_of_string publisher) = true ->
  forallb (RegExp.except ".") (list_ascii_of_string publisher') = true ->
  getExtensionId publisher name = getExtensionId publisher' name' ->
  publisher = publisher' /\ name = name'.
Proof.
  intros Hp Hp' E. unfold getExtensionId in E.
  apply (f_equal list_ascii_of_string) in E.
  rewrite !list_ascii_of_string_app in E. cbn in E.
  destruct (app_dot_inj _ _ _ _ Hp Hp' E) as [E1 E2].
  split; now apply list_ascii_of_string_inj.
Qed.

Lemma getExtensionId_injective_witness : "pub" = "pub" /\ "name" = "name".
Proof.
  apply getExtensionId_injective; reflexivity.
Defined.

(** X16.  An id built by [getExtensionId] from a non-empty publisher
    without dot and a non-empty name without line terminator is the id of a
    key: followed by a dash and a version it parses to the key of this id and
    this version, with the platform-agnostic sentinel. *)
Theorem parse_getExtensionId (publisher name version : string) :
  publisher <> "" ->
  forallb (RegExp.except ".") (list_ascii_of_string publisher) = true ->
  name <> "" ->
  forallb RegExp.anyChar (list_ascii_of_string name) = true ->
  threeIntegerRuns version ->
  ExtensionKey.parse (getExtensionId publisher name ++ "-" ++ version)
  = Some {| ExtensionKey.id := getExtensionId publisher name;
            ExtensionKey.version := version;
            ExtensionKey.targetPlatform := TargetPlatform.UNDEFINED |}.
Proof.
  intros Np Dp Nn Dn Hv.
  replace (getExtensionId publisher name ++ "-" ++ version)%string
    with (ExtensionKey.toString
            {| ExtensionKey.id := getExtensionId publisher name;
               ExtensionKey.version := version;
               ExtensionKey.targetPlatform := TargetPlatform.UNDEFINED |}).
  - apply parse_toString; cbn; auto.
    exists publisher, name. auto.
  - unfold ExtensionKey.toString. cbn [ExtensionKey.id ExtensionKey.version
      ExtensionKey.targetPlatform]. rewrite String.eqb_refl. cbn [negb].
    now rewrite string_app_nil_r.
Qed.

Lemma parse_getExtensionId_witness :
  ExtensionKey.parse (getExtensionId "pub" "name" ++ "-" ++ "1.2.3")
  = Some {| ExtensionKey.id := getExtensionId "pub" "name";
            ExtensionKey.version := "1.2.3";
            ExtensionKey.targetPlatform := TargetPlatform.UNDEFINED |}.
Proof.
  apply parse_getExtensionId; try discriminate; try reflexivity.
  exists "1", "2", "3". repeat split; discriminate.
Defined.

(** *** [getMaliciousExtensionsSet] *)

Lemma StringSet_has_iff (x : string) (s : StringSet.t) :
  StringSet.has x s = true <-> In x s.
Proof.
  unfold StringSet.has. rewrite existsb_exists. split.
  - intros (y & Hy & E). apply String.eqb_eq in E. now subst.
  - intros H. exists x. split; [assumption | apply String.eqb_refl].
Qed.

Lemma StringSet_add_In (x y : string) (s : StringSet.t) :
  In y (StringSet.add x s) <-> y = x \/ In y s.
Proof.
  unfold StringSet.add. destruct (StringSet.has x s) eqn:E.
  - apply StringSet_has_iff in E. split; [auto | now intros [->|H]].
  - rewrite in_app_iff. simpl. intuition.
Qed.

Lemma StringSet_add_NoDup (x : string) (s : StringSet.t) :
  NoDup s -> NoDup (StringSet.add x s).
Proof.
  intros H. unfold StringSet.add. destruct (StringSet.has x s) eqn:E; [easy|].
  apply NoDup_app; [assumption | repeat constructor; easy |].
  intros y Hy [<-|[]]. apply StringSet_has_iff in Hy. congruence.
Qed.

Lemma fold_add_spec (extensions : list IExtensionIdentifier)
    (s : StringSet.t) :
  let result :=
    fold_left (fun result extension => StringSet.add (id extension) result)
      extensions s in
  (NoDup s -> NoDup result) /\
  (forall i, In i result <-> In i s \/ exists e, In e extensions /\ id e = i) /\
  List.length result <= List.length s + List.length extensions.
Proof.
  cbv zeta. revert s. induction extensions as [|e l IH]; intros s; simpl.
  - split; [auto|]. split; [|lia]. intros i. split; [auto|].
    intros [H|(e & [] & _)]. exact H.
  - destruct (IH (StringSet.add (id e) s)) as (Hnd & Hin & Hlen).
    split; [|split].
    + intros H. apply Hnd, StringSet_add_NoDup, H.
    + intros i. rewrite Hin, StringSet_add_In. split.
      * intros [[->|H]|(e' & He' & <-)]; eauto.
      * intros [H|(e' & [<-|He'] & <-)]; eauto.
    + assert (List.length (StringSet.add (id e) s) <= S (List.length s)).
      { unfold StringSet.add. destruct (StringSet.has (id e) s); [lia|].
        rewrite length_app. simpl. lia. }
      lia.
Qed.

(** X17.  The set holds exactly the ids of the denylist, compared as they
    are written: an id is a member when a denylisted identifier has this very
    id.  A manifest without denylist gives the empty set, no id is held
    twice, and the set has no more members than the denylist has entries. *)
Theorem getMaliciousExtensionsSet_members
    (manifest : IExtensionsControlManifest) :
  let result := getMaliciousExtensionsSet manifest in
  (forall i,
     StringSet.has i result = true <->
     exists extensions e,
       malicious manifest = Some extensions /\ In e extensions /\ id e = i) /\
  NoDup result /\
  (malicious manifest = None -> result = StringSet.empty) /\
  (forall extensions,
     malicious manifest = Some extensions ->
     List.length result <= List.length extensions).
Proof.
  cbv zeta. unfold getMaliciousExtensionsSet.
  destruct (malicious manifest) as [l|].
  - destruct (fold_add_spec l StringSet.empty) as (Hnd & Hin & Hlen).
    split; [|split; [|split]].
    + intros i. rewrite StringSet_has_iff, Hin. split.
      * intros [[]|(e & He & <-)]. eauto.
      * intros (l' & e & [= <-] & He & <-). eauto.
    + apply Hnd. constructor.
    + discriminate.
    + intros l' [= <-]. exact Hlen.
  - split; [|split; [|split]].
    + intros i. split; [discriminate|]. intros (l & e & H & _). discriminate.
    + constructor.
    + reflexivity.
    + discriminate.
Qed.

Lemma getMaliciousExtensionsSet_members_witness :
  StringSet.has "evil.ext"
    (getMaliciousExtensionsSet
       {| malicious := Some [idOnly "evil.ext"; idOnly "Evil.Ext";
                             idOnly "evil.ext"] |}) = true.
Proof.
  apply (getMaliciousExtensionsSet_members
           {| malicious := Some [idOnly "evil.ext"; idOnly "Evil.Ext";
                                 idOnly "evil.ext"] |}).
  exists [idOnly "evil.ext"; idOnly "Evil.Ext"; idOnly "evil.ext"],
    (idOnly "evil.ext").
  split; [reflexivity|]. split; [now left | reflexivity].
Defined.

(** *** [getLocalExtensionTelemetryData] *)

Lemma getExtensionDependencies_no_ids
    (compareIgnoreCase : string -> string -> Z)
    (installedExtensions : list IExtension) (extension : IExtension) :
  dependencyIds extension = [] ->
  getExtensionDependencies compareIgnoreCase installedExtensions extension = [].
Proof.
  intros H. unfold getExtensionDependencies, getExtensionDependenciesWithin.
  rewrite H. now destruct (enqueueBound installedExtensions extension).
Qed.

(** X18.  The [dependencies] field of the telemetry of an installed
    extension is [true] exactly when the extension declares a dependency id;
    it is [undefined] without a list and [false] for an empty one, and then
    the extension has no dependencies among any installed extensions. *)
Theorem getLocalExtensionTelemetryData_dependencies
    (compareIgnoreCase : string -> string -> Z)
    (installedExtensions : list IExtension) (extension : ILocalExtension) :
  let data := getLocalExtensionTelemetryData extension in
  (telemetry_dependencies data = Some true <->
   dependencyIds (local_extension extension) <> []) /\
  (telemetry_dependencies data = None <->
   extensionDependencies (manifest (local_extension extension)) = None) /\
  (telemetry_dependencies data <> Some true ->
   getExtensionDependencies compareIgnoreCase installedExtensions
     (local_extension extension) = []).
Proof.
  cbv zeta. unfold getLocalExtensionTelemetryData, dependencyIds. cbn.
  assert (Hflag :
    match extensionDependencies (manifest (local_extension extension)) with
    | Some ids => Some (0 <? List.length ids)%nat
    | None => None
    end = Some true <->
    dependencyIds (local_extension extension) <> []).
  { unfold dependencyIds.
    destruct (extensionDependencies (manifest (local_extension extension)))
      as [[|i ids]|]; simpl; split; intros H;
      try discriminate; try reflexivity; now elim H. }
  split; [exact Hflag|]. split.
  - destruct (extensionDependencies (manifest (local_extension extension)));
      split; congruence.
  - intros H. apply getExtensionDependencies_no_ids.
    destruct (dependencyIds (local_extension extension)) eqn:E; [reflexivity|].
    exfalso. apply H, Hflag. congruence.
Qed.

Lemma getLocalExtensionTelemetryData_dependencies_witness :
  getExtensionDependencies strings.compareIgnoreCase [a_one; a_two]
    (extensionWith "a.none" []) = [].
Proof.
  apply (getLocalExtensionTelemetryData_dependencies strings.compareIgnoreCase
           [a_one; a_two]
           {| local_extension := extensionWith "a.none" [];
              local_publisherId := None;
              local_publisherDisplayName := None |}).
  discriminate.
Defined.

(** ** The gallery telemetry *)

(** *** [getGalleryExtensionTelemetryData] *)

Lemma JsObject_get_set (k k' : string) (v : value) (o : JsObject.t) :
  JsObject.get k (JsObject.set k' v o)
  = if (k' =? k)%string then Some v else JsObject.get k o.
Proof.
  induction o as [|[k0 v0] o IH]; simpl.
  - reflexivity.
  - destruct (String.eqb_spec k0 k') as [->|Hne]; simpl.
    + now destruct (k' =? k)%string.
    + destruct (String.eqb_spec k0 k) as [->|Hne'].
      * destruct (String.eqb_spec k' k) as [->|_]; [easy | reflexivity].
      * exact IH.
Qed.

Lemma JsObject_get_spread (k : string) (source o : JsObject.t) :
  JsObject.wellFormed source ->
  JsObject.get k (JsObject.spread (Some source) o)
  = match JsObject.get k source with
    | Some v => Some v
    | None => JsObject.get k o
    end.
Proof.
  unfold JsObject.wellFormed, JsObject.spread. revert o.
  induction source as [|[k0 v0] source IH]; intros o Hwf; simpl.
  - reflexivity.
  - inversion Hwf as [|? ? Hnot Hwf']; subst.
    rewrite IH by assumption.
    destruct (String.eqb_spec k0 k) as [->|Hne].
    + assert (JsObject.get k source = None) as ->.
      { clear -Hnot. induction source as [|[k1 v1] source IH]; simpl in *;
          [reflexivity|].
        destruct (String.eqb_spec k1 k) as [->|_]; [tauto|]. apply IH. tauto. }
      rewrite JsObject_get_set. now rewrite String.eqb_refl.
    + rewrite JsObject_get_set.
      destruct (String.eqb_spec k0 k); [contradiction | reflexivity].
Qed.

(** X19.  The properties of [telemetryData] win: a property that
    [telemetryData] has is reported with the value it has there, also [id]
    or [dependencies]; every other property is reported as computed from the
    extension, [dependencies] being the boolean that tells whether the
    extension lists a dependency. *)
Theorem getGalleryExtensionTelemetryData_properties
    (extension : IGalleryExtension.t) (k : string) :
  match IGalleryExtension.telemetryData extension with
  | Some data => JsObject.wellFormed data
  | None => True
  end ->
  JsObject.get k (getGalleryExtensionTelemetryData extension)
  = match IGalleryExtension.telemetryData extension with
    | Some data =>
        match JsObject.get k data with
        | Some v => Some v
        | None => JsObject.get k (galleryTelemetryFields extension)
        end
    | None => JsObject.get k (galleryTelemetryFields extension)
    end.
Proof.
  unfold getGalleryExtensionTelemetryData.
  destruct (IGalleryExtension.telemetryData extension) as [data|];
    [apply JsObject_get_spread | reflexivity].
Qed.

Lemma getGalleryExtensionTelemetryData_properties_witness :
  JsObject.get "id"
    (getGalleryExtensionTelemetryData
       {| IGalleryExtension.name := "name";
          IGalleryExtension.identifier := idOnly "pub.name";
          IGalleryExtension.publisherId := "p1";
          IGalleryExtension.publisher := "pub";
          IGalleryExtension.publisherDisplayName := "Pub";
          IGalleryExtension.properties :=
            {| IGalleryExtension.isPreReleaseVersion := false;
               IGalleryExtension.dependencies := None |};
          IGalleryExtension.telemetryData :=
            Some [("index", VOther 0); ("id", VString "other")] |})
  = Some (VString "other").
Proof.
  apply (getGalleryExtensionTelemetryData_properties
           {| IGalleryExtension.name := "name";
              IGalleryExtension.identifier := idOnly "pub.name";
              IGalleryExtension.publisherId := "p1";
              IGalleryExtension.publisher := "pub";
              IGalleryExtension.publisherDisplayName := "Pub";
              IGalleryExtension.properties :=
                {| IGalleryExtension.isPreReleaseVersion := false;
                   IGalleryExtension.dependencies := None |};
              IGalleryExtension.telemetryData :=
                Some [("index", VOther 0); ("id", VString "other")] |} "id").
  repeat constructor; simpl; intuition discriminate.
Defined.
